(** * intee: locale resolution over scored sources

    A shallow embedding of the core of the [intee] packages
    ([helpers/match.ts], [helpers/load.ts], [util.ts], [resource.ts] and
    [index.ts]) and the properties of the resolver, the predicate
    combinators and the loader combinators.

    JavaScript numbers are IEEE 754 binary64 values ([spec_float] with
    precision 53 and maximal exponent 1024); callbacks handed to the library
    (predicates, loaders) are computations over a world that they may read
    and change and that may end by throwing. *)

From Stdlib Require Import ZArith String SpecFloat.
From stdpp Require Import gmap strings list pretty.

#[local] Set Warnings "-register-all".

(** ** Numbers *)

Module JsNumber.

Definition number : Type := spec_float.

Definition prec : Z := 53.
Definition emax : Z := 1024.

(** The number denoted by an integer literal. *)
Definition of_Z (z : Z) : number := binary_normalize prec emax z 0 false.
Definition of_nat (n : nat) : number := of_Z (Z.of_nat n).

Definition zero : number := S754_zero false.
Definition one : number := of_Z 1.
Definition two : number := of_Z 2.
(** [0.5], that is 1 * 2^-1. *)
Definition half : number := binary_normalize prec emax 1 (-1) false.
Definition NaN : number := S754_nan.

(** [a + b], [a * b], [a / b] and unary minus. *)
Definition add : number -> number -> number := SFadd prec emax.
Definition mul : number -> number -> number := SFmul prec emax.
Definition div : number -> number -> number := SFdiv prec emax.
Definition neg : number -> number := SFopp.

(** [Math.abs]. *)
Definition abs : number -> number := SFabs.

(** [a > b]: false as soon as one side is NaN. *)
Definition gt (a b : number) : bool := SFltb b a.
(** [a >= b]. *)
Definition ge (a b : number) : bool := SFleb b a.
(** [a === b] on numbers: NaN differs from itself, [-0 === 0]. *)
Definition eq (a b : number) : bool := SFeqb a b.

Definition isNaN (a : number) : bool :=
  match a with S754_nan => true | _ => false end.

End JsNumber.

Import JsNumber.

(** ** Values *)

(** Property keys are strings or symbols; a symbol is identified by the
    order in which [Symbol(...)] created it. *)
Inductive PropertyKey :=
  | PString (s : string)
  | PSymbol (id : nat).

#[global] Instance PropertyKey_eq_dec : EqDecision PropertyKey.
Proof. solve_decision. Defined.

#[global] Instance PropertyKey_countable : Countable PropertyKey.
Proof.
  refine (inj_countable'
            (fun k => match k with PString s => inl s | PSymbol i => inr i end)
            (fun x => match x with inl s => PString s | inr i => PSymbol i end)
            _).
  by intros [].
Defined.

(** An object is the finite map of its own enumerable properties. *)
Inductive Value :=
  | VUndefined
  | VNull
  | VBoolean (b : bool)
  | VNumber (n : number)
  | VString (s : string)
  | VObject (props : gmap PropertyKey Value).

(** ** util.ts: completions, worlds, promises *)

Module Util.

(** The result of running a piece of JavaScript: a value, or a thrown
    value. *)
Inductive completion (A : Type) :=
  | Normal (a : A)
  | Throw (e : Value).
Arguments Normal {A} a.
Arguments Throw {A} e.

(** A computation over a state [S]. *)
Definition Js (S A : Type) : Type := S -> completion A * S.

Definition ret {S A} (a : A) : Js S A := fun s => (Normal a, s).

Definition throw {S A} (e : Value) : Js S A := fun s => (Throw e, s).

Definition bind {S A B} (c : Js S A) (k : A -> Js S B) : Js S B :=
  fun s =>
    match c s with
    | (Normal a, s') => k a s'
    | (Throw e, s') => (Throw e, s')
    end.

(** How a promise ends. *)
Inductive Settlement (A : Type) :=
  | Fulfilled (a : A)
  | Rejected (e : Value)
  | Pending.
Arguments Fulfilled {A} a.
Arguments Rejected {A} e.
Arguments Pending {A}.

(** A promise (or thenable) object: its identity and the settlement it
    reaches. *)
Record PromiseLike (T : Type) := {
  promise_id : nat;
  eventually : Settlement T
}.
Arguments promise_id {T} p.
Arguments eventually {T} p.

(** [Sync<T> = () => T] *)
Definition Sync (World T : Type) : Type := Js World T.

(** [Async<T> = () => PromiseLike<T>] *)
Definition Async (World T : Type) : Type := Js World (PromiseLike T).

End Util.

Import Util.

Notation "'let*' x ':=' c 'in' k" := (bind c (fun x => k))
  (at level 10, x name, c at level 100, k at level 200).

(** ** Built-in string, array and regular-expression operations *)

Module JsString.

(** [tag.startsWith(prefix)] *)
Definition startsWith (tag prefix : string) : bool := String.prefix prefix tag.

(** [tag.endsWith(suffix)]: the last [suffix.length] code units of [tag]
    are compared with [suffix]. *)
Definition endsWith (tag suffix : string) : bool :=
  let len := String.length tag in
  let searchLength := String.length suffix in
  if (searchLength <=? len)%nat
  then String.eqb (String.substring (len - searchLength) searchLength tag) suffix
  else false.

(** [candidates.includes(tag)] on an array of strings. *)
Definition includes (candidates : list string) (tag : string) : bool :=
  existsb (String.eqb tag) candidates.

End JsString.

Module JsRegExp.

(** A regular-expression object: its identity, its compiled matcher (the
    end index of a match of the pattern starting exactly at the given
    index, if there is one) and the [g] and [y] flags. Its [lastIndex]
    property lives in the world. *)
Record RegExp := {
  re_id : nat;
  matcher : string -> nat -> option nat;
  global : bool;
  sticky : bool
}.

Class RegExpHeap (World : Type) := {
  getLastIndex : nat -> World -> nat;
  setLastIndex : nat -> nat -> World -> World
}.

(** The matching loop of [RegExpBuiltinExec]: [n] positions are left to
    try, starting at [lastIndex]; a sticky expression tries only the
    first. *)
Fixpoint search (m : string -> nat -> option nat) (y : bool) (str : string)
    (n lastIndex : nat) : option nat :=
  match n with
  | O => None
  | S n' =>
      match m str lastIndex with
      | Some e => Some e
      | None => if y then None else search m y str n' (S lastIndex)
      end
  end.

Section Exec.
Context {World : Type} `{!RegExpHeap World}.

(** [RegExpBuiltinExec(R, S)]: the end index of the match found, if
    any. With [g] or [y] the search starts at [lastIndex], which is set
    to the end of the match, or to 0 when there is none. *)
Definition RegExpBuiltinExec (R : RegExp) (str : string) : Js World (option nat) :=
  fun w =>
    let stateful := global R || sticky R in
    let lastIndex := if stateful then getLastIndex (re_id R) w else O in
    match search (matcher R) (sticky R) str (S (String.length str) - lastIndex) lastIndex with
    | Some e => (Normal (Some e), if stateful then setLastIndex (re_id R) e w else w)
    | None => (Normal None, if stateful then setLastIndex (re_id R) O w else w)
    end.

(** [RegExp.prototype.test] *)
Definition test (R : RegExp) (str : string) : Js World bool :=
  let* r := RegExpBuiltinExec R str in
  ret (match r with Some _ => true | None => false end).

End Exec.

(** The store of [lastIndex] properties, by object identity; a fresh
    expression has [lastIndex] 0. *)
#[global] Instance gmap_RegExpHeap : RegExpHeap (gmap nat nat) := {
  getLastIndex r w := default O (w !! r);
  setLastIndex r i w := <[r := i]> w
}.

(** The matcher of a pattern that is a literal string. *)
Definition literal (pat : string) : string -> nat -> option nat :=
  fun str i =>
    if String.eqb (String.substring i (String.length pat) str) pat
    then Some (i + String.length pat)
    else None.

End JsRegExp.

(** ** helpers/match.ts *)

Module Match.

(** [number | boolean] *)
Inductive NumberOrBoolean :=
  | Num (n : number)
  | Bool (b : bool).

(** [Number(v)] for [v : number | boolean]. *)
Definition Number (v : NumberOrBoolean) : number :=
  match v with
  | Num n => n
  | Bool true => one
  | Bool false => zero
  end.

Section Predicates.
Context {World : Type}.

(** [type Predicate = (tag: string) => number | boolean] *)
Definition Predicate : Type := string -> Js World NumberOrBoolean.

Definition startsWith (prefix : string) : Predicate :=
  fun tag => ret (Bool (JsString.startsWith tag prefix)).

Definition endsWith (suffix : string) : Predicate :=
  fun tag => ret (Bool (JsString.endsWith tag suffix)).

(** [is] in the source; [is] is reserved here. *)
Definition is_ (expected : string) : Predicate :=
  fun tag => ret (Bool (String.eqb expected tag)).

Definition isOneOf (candidates : list string) : Predicate :=
  fun tag => ret (Bool (JsString.includes candidates tag)).

(** [pattern.test.bind(pattern)] *)
Definition matches `{!JsRegExp.RegExpHeap World} (pattern : JsRegExp.RegExp) : Predicate :=
  fun tag =>
    let* b := JsRegExp.test pattern tag in
    ret (Bool b).

Definition weighted (factor : number) (predicate : Predicate) : Predicate :=
  fun tag =>
    let* v := predicate tag in
    ret (Num (mul (Number v) factor)).

(** [array.reduce(f, init)] with a callback that may have effects. *)
Fixpoint reduce {A B : Type} (f : B -> A -> Js World B) (l : list A) (init : B)
    : Js World B :=
  match l with
  | [] => ret init
  | x :: l' =>
      let* acc := f init x in
      reduce f l' acc
  end.

Definition mean (predicates : list Predicate) : Predicate :=
  fun tag =>
    let* sum := reduce (fun sum p =>
                          let* v := p tag in
                          ret (add sum (Number v)))
                       predicates zero in
    ret (Num (div sum (of_nat (length predicates)))).

(** What the predicates of a list return for a locale when they are called
    one after the other. *)
Fixpoint results (ps : list Predicate) (tag : string) : Js World (list NumberOrBoolean) :=
  match ps with
  | [] => ret []
  | p :: ps' =>
      let* v := p tag in
      let* vs := results ps' tag in
      ret (v :: vs)
  end.

(** The predicate that returns the opposite of what [p] returns. *)
Definition negated (p : Predicate) : Predicate :=
  fun tag =>
    let* v := p tag in
    ret (Num (neg (Number v))).

(** A predicate is pure when what it returns is a function of the locale
    alone and calling it leaves the world as it was. *)
Definition pure (p : Predicate) : Prop :=
  exists f : string -> NumberOrBoolean, forall tag w, p tag w = (Normal (f tag), w).

End Predicates.

(** The arithmetic mean of a list of numbers: their sum, taken from left to
    right, over their count. *)
Definition arithmetic_mean (xs : list number) : number :=
  div (fold_left add xs zero) (of_nat (length xs)).

End Match.

(** ** helpers/load.ts *)

Module Load.

Section Memoize.
Context {World T : Type}.

(** What one call of the wrapped loader does. The loader is code of the
    caller: it runs on the world, and it may call the memoized function it
    is wrapped in, going on from what that call returned or threw and from
    the world it left; in the end it returns a promise or throws. *)
Inductive Behaviour :=
  | Ends (r : completion (PromiseLike T)) (w : World)
  | Reenters (w : World) (k : completion (PromiseLike T) -> World -> Behaviour).

Definition Loader : Type := World -> Behaviour.

(** A loader that does not call the memoized function. *)
Definition plain (loader : Async World T) : Loader :=
  fun w => let (r, w') := loader w in Ends r w'.

(** What the function returned by [memoize] works on: the variable
    [promise] that it captured and the world. [invoked] counts the calls
    of the wrapped loader; nothing reads it. *)
Record Closure := {
  promise : option (PromiseLike T);
  world : World;
  invoked : nat
}.

(** The closure as [memoize(loader)] returns it: [promise] is
    [undefined]. *)
Definition fresh (w : World) : Closure :=
  {| promise := None; world := w; invoked := O |}.

(** One call [loader()], with [self] for the memoized function. *)
Fixpoint invoke (self : Closure -> option (completion (PromiseLike T) * Closure))
    (b : Behaviour) (c : Closure) : option (completion (PromiseLike T) * Closure) :=
  match b with
  | Ends r w =>
      Some (r, {| promise := promise c; world := w; invoked := invoked c |})
  | Reenters w k =>
      match self {| promise := promise c; world := w; invoked := invoked c |} with
      | Some (r, c') => invoke self (k r (world c')) c'
      | None => None
      end
  end.

(** [() => (promise ||= loader())]: [promise] is read first; a promise
    object is truthy and is returned; [undefined] is not, then [loader()]
    is called and, once it has returned, what it returned is assigned to
    [promise], whatever [promise] has become meanwhile. [depth] bounds how
    deep the calls of the memoized function from within the loader may
    nest; beyond it there is no result. *)
Fixpoint memoize (depth : nat) (loader : Loader) (c : Closure)
    : option (completion (PromiseLike T) * Closure) :=
  match promise c with
  | Some p => Some (Normal p, c)
  | None =>
      match depth with
      | O => None
      | S depth' =>
          match invoke (memoize depth' loader) (loader (world c))
                  {| promise := promise c; world := world c; invoked := S (invoked c) |} with
          | Some (Normal p, c') =>
              Some (Normal p,
                    {| promise := Some p; world := world c'; invoked := invoked c' |})
          | Some (Throw e, c') => Some (Throw e, c')
          | None => None
          end
      end
  end.

(** What happens to a memoized loader over time: it is called, or other
    code runs, which changes the world (it may settle promises) and
    cannot reach the captured variable. *)
Inductive Step :=
  | Call
  | Elsewhere (f : World -> World).

Fixpoint run (depth : nat) (loader : Loader) (steps : list Step) (c : Closure)
    : option (list (completion (PromiseLike T)) * Closure) :=
  match steps with
  | [] => Some ([], c)
  | Call :: rest =>
      match memoize depth loader c with
      | Some (r, c') =>
          match run depth loader rest c' with
          | Some (rs, c'') => Some (r :: rs, c'')
          | None => None
          end
      | None => None
      end
  | Elsewhere f :: rest =>
      run depth loader rest
        {| promise := promise c; world := f (world c); invoked := invoked c |}
  end.

(** The world after the steps of other code among [steps]. *)
Definition elsewhere (steps : list Step) (w : World) : World :=
  foldl (fun w s => match s with Elsewhere f => f w | Call => w end) w steps.

(** The number of calls among [steps]. *)
Definition calls (steps : list Step) : nat :=
  length (List.filter (fun s => match s with Call => true | Elsewhere _ => false end) steps).

End Memoize.

Arguments Behaviour : clear implicits.
Arguments Loader : clear implicits.
Arguments Closure : clear implicits.

End Load.

(** ** resource.ts *)

Module Resource.

(** What a loader returns: the content ([Sync<T>]) or a promise of it
    ([Async<T>]). *)
Inductive Loaded :=
  | Immediately (t : Value)
  | Eventually (p : PromiseLike Value).

Section Source.
Context {World : Type}.

Record Source := {
  tag : string;
  predicate : Match.Predicate (World := World);
  loader : Js World Loaded
}.

End Source.

Arguments Source : clear implicits.

End Resource.

(** ** index.ts *)

Module Core.

Import Match Resource.

(** [Symbol("Internationalization.Tag")], the first symbol the module
    creates. *)
Definition Tag : PropertyKey := PSymbol 0.

(** The own enumerable properties [Object.assign] copies from a source:
    those of an object, the indexed characters of a string, none
    otherwise. *)
Definition own_enumerable (v : Value) : gmap PropertyKey Value :=
  match v with
  | VObject props => props
  | VString s =>
      list_to_map
        (imap (fun i c => (PString (pretty i), VString (String c EmptyString)))
              (list_ascii_of_string s))
  | _ => ∅
  end.

(** [Object.assign(target, ...sources)]: each source in turn overwrites. *)
Definition Object_assign (target : gmap PropertyKey Value) (sources : list Value)
    : gmap PropertyKey Value :=
  foldl (fun t s => own_enumerable s ∪ t) target sources.

(** [Object.assign({}, t, {[Tag]: tag})] *)
Definition tag (t : Value) (tagValue : Value) : Value :=
  VObject (Object_assign ∅ [t; VObject {[ Tag := tagValue ]}]).

(** [o[key]] on own properties. *)
Definition get (o : Value) (key : PropertyKey) : Value :=
  match o with
  | VObject props => default VUndefined (props !! key)
  | _ => VUndefined
  end.

(** The calls the resolver makes to the callbacks of its sources, in
    order; sources are named by their position in [sources]. *)
Inductive Event :=
  | CallPredicate (source : nat) (locale : string)
  | CallLoader (source : nat).

Section Internationalization.
Context {World : Type}.

Record Internationalization := {
  fallback : Source World;
  sources : list (Source World)
}.

(** [new Internationalization(fallback, ...others)] *)
Definition new (fallback : Source World) (others : list (Source World))
    : Internationalization :=
  {| fallback := fallback; sources := fallback :: others |}.

(** The world and the calls made so far. *)
Definition State : Type := World * list Event.

Definition call {A} (ev : Event) (f : Js World A) : Js State A :=
  fun st =>
    let (r, w') := f (fst st) in
    (r, (w', snd st ++ [ev])).

(** [for (const s of this.sources) { ... }] for one locale. [best] is
    the pair of [max] and [source]; the variable [source] refers to one
    of the objects of [this.sources], named by its position [i]. *)
Fixpoint scan_sources (ss : list (Source World)) (i : nat) (locale : string)
    (best : number * nat) : Js State (number * nat) :=
  match ss with
  | [] => ret best
  | s :: ss' =>
      let* v := call (CallPredicate i locale) (predicate s locale) in
      let score := abs (Number v) in
      scan_sources ss' (S i) locale
        (if gt score (fst best) then (score, i) else best)
  end.

(** [for (const locale of locales) { ...; if (max > 0) break }] *)
Fixpoint scan_locales (ss : list (Source World)) (locales : list string)
    (best : number * nat) : Js State (number * nat) :=
  match locales with
  | [] => ret best
  | locale :: rest =>
      let* best' := scan_sources ss O locale best in
      if gt (fst best') zero then ret best' else scan_locales ss rest best'
  end.

(** [await x]: a value that is no promise is passed on. *)
Definition await (x : Loaded) : Settlement Value :=
  match x with
  | Immediately t => Fulfilled t
  | Eventually p => eventually p
  end.

(** [return tag(await source.loader(), source.tag)] for the source at
    position [k]; the result is how the promise of the [async] function
    settles. *)
Definition load (I : Internationalization) (k : nat) : State -> Settlement Value * State :=
  fun st =>
    let source := nth k (sources I) (fallback I) in
    match call (CallLoader k) (loader source) st with
    | (Throw e, st') => (Rejected e, st')
    | (Normal x, st') =>
        (match await x with
         | Fulfilled t => Fulfilled (tag t (VString (Resource.tag source)))
         | Rejected e => Rejected e
         | Pending => Pending
         end, st')
    end.

(** [let max = 0; let source = this.fallback], the two loops, and the
    load. [this.fallback] is the object at position 0. *)
Definition resolve (I : Internationalization) (locales : list string)
    : State -> Settlement Value * State :=
  fun st =>
    match scan_locales (sources I) locales (zero, O) st with
    | (Throw e, st') => (Rejected e, st')
    | (Normal best, st') => load I (snd best) st'
    end.

(** The position of the source the two loops of [resolve] leave in
    [source]. *)
Definition winner (I : Internationalization) (locales : list string) : Js State nat :=
  let* best := scan_locales (sources I) locales (zero, O) in
  ret (snd best).

(** The scores of the sources for a locale, in registration order. *)
Definition scores (ss : list (Source World)) (locale : string) : Js World (list number) :=
  let* vs := results (map predicate ss) locale in
  ret (map (fun v => abs (Number v)) vs).

(** The best of a list of scores, the first of which belongs to the source
    at position [i]: a score replaces the best so far if it is greater. *)
Fixpoint select_best (sc : list number) (i : nat) (best : number * nat) : number * nat :=
  match sc with
  | [] => best
  | x :: sc' => select_best sc' (S i) (if gt x (fst best) then (x, i) else best)
  end.

(** The sources whose loaders a trace says were called, in order. *)
Definition loader_calls (tr : list Event) : list nat :=
  omap (fun ev => match ev with CallLoader k => Some k | CallPredicate _ _ => None end) tr.

(** [s'] is [s], except that its predicate may return the opposite
    numbers. *)
Definition sign_flipped (s s' : Source World) : Prop :=
  Resource.tag s' = Resource.tag s /\
  loader s' = loader s /\
  (predicate s' = predicate s \/ predicate s' = negated (predicate s)).

(** The calls of the predicates of [n] sources, from position [i] on, for
    one locale. *)
Definition predicate_calls (i n : nat) (locale : string) : list Event :=
  map (fun j => CallPredicate j locale) (seq i n).

End Internationalization.

Arguments Internationalization : clear implicits.

(** The payloads whose keys, as [own_enumerable] gives them, are those
    that [Object.assign] copies: an object without an own property
    [__proto__] (assigned to the target, that key sets its prototype
    instead of a property), a string of ASCII characters (one index for
    each character), and the values that have no own enumerable
    property. *)
Definition copied_by_key (t : Value) : Prop :=
  match t with
  | VObject props => props !! PString "__proto__" = None
  | VString s => Forall (fun c => Ascii.nat_of_ascii c < 128) (list_ascii_of_string s)
  | _ => True
  end.

End Core.

Import Match Resource Core Load.

(** ** Example data *)

Module Example.

Definition hello (s : string) : Value := VObject {[ PString "hello" := VString s ]}.

(** The two sources of the documentation: the fallback is loaded at once,
    the other through a promise. *)
Definition en_US : Source unit := {|
  Resource.tag := "en-US";
  predicate := mean [startsWith "en"; startsWith "en-US"];
  loader := ret (Immediately (hello "Hello!"))
|}.

Definition zh_CN : Source unit := {|
  Resource.tag := "zh-CN";
  predicate := mean [startsWith "zh"; startsWith "zh-CN"];
  loader := ret (Eventually {| promise_id := 0; eventually := Fulfilled (hello "你好！") |})
|}.

(** A second English source, scored like the first for every locale. *)
Definition en_GB : Source unit := {|
  Resource.tag := "en-GB";
  predicate := mean [startsWith "en"; startsWith "en-US"];
  loader := ret (Immediately (hello "Hello!"))
|}.

(** [zh_CN] with a predicate that returns the opposite numbers. *)
Definition zh_CN_negated : Source unit := {|
  Resource.tag := "zh-CN";
  predicate := negated (mean [startsWith "zh"; startsWith "zh-CN"]);
  loader := loader zh_CN
|}.

(** A source whose promise rejects. *)
Definition zh_TW : Source unit := {|
  Resource.tag := "zh-TW";
  predicate := startsWith "zh-TW";
  loader := ret (Eventually {| promise_id := 1; eventually := Rejected (VString "offline") |})
|}.

(** [/en/g] *)
Definition en_g : JsRegExp.RegExp := {|
  JsRegExp.re_id := 0;
  JsRegExp.matcher := JsRegExp.literal "en";
  JsRegExp.global := true;
  JsRegExp.sticky := false
|}.

(** [/^en/] *)
Definition en_anchored : JsRegExp.RegExp := {|
  JsRegExp.re_id := 1;
  JsRegExp.matcher := fun str i =>
    match i with O => JsRegExp.literal "en" str i | S _ => None end;
  JsRegExp.global := false;
  JsRegExp.sticky := false
|}.

(** A resolver over a world of regular expressions: a fallback that
    matches nothing and a source for [matches(/en/g)]. *)
Definition und : Source (gmap nat nat) := {|
  Resource.tag := "und";
  predicate := isOneOf [];
  loader := ret (Immediately (hello "?"))
|}.

Definition en_by_pattern : Source (gmap nat nat) := {|
  Resource.tag := "en";
  predicate := matches en_g;
  loader := ret (Immediately (hello "Hello!"))
|}.

(** A loader that throws before it has a promise to return, and one whose
    promise rejects. *)
Definition throwing : Async unit Value := throw (VString "boom").


(** A loader in the manner of [() => import("./languages/zh-CN")]. *)
Definition importing : Async unit Value :=
  ret {| promise_id := 3; eventually := Fulfilled (hello "你好！") |}.

(** A loader that, the first time it runs, calls the memoized function
    before it returns its own promise [first]; run again, it returns
    [second]. The world counts the times the loader has started and lists
    the promises its calls of the memoized function returned. *)
Definition reentrant (first second : PromiseLike Value)
    : Loader (nat * list (PromiseLike Value)) Value :=
  fun w =>
    match fst w with
    | O =>
        Reenters (1, snd w)
          (fun r w' =>
             Ends (Normal first)
                  (fst w', snd w' ++ match r with Normal q => [q] | Throw _ => [] end))
    | S _ => Ends (Normal second) w
    end.

Definition first_promise : PromiseLike Value :=
  {| promise_id := 1; eventually := Fulfilled (hello "first") |}.

Definition second_promise : PromiseLike Value :=
  {| promise_id := 2; eventually := Fulfilled (hello "second") |}.



End Example.

(** ** helpers/load.ts: [map] and [pick] *)

Module Adapters.

(** The world hands out the identity of each new promise object. *)
Class PromiseHeap (World : Type) := {
  newPromise : World -> nat * World
}.

(** What reading a property of [undefined] or [null] throws. *)
Definition TypeError : Value := VObject {[ PString "name" := VString "TypeError" ]}.

(** What a function returns to [then], or a property holds: a value that
    is no thenable, or a thenable, taken as a promise with how it
    settles. *)
Inductive Returned (U : Type) :=
  | Plain (u : U)
  | Thenable (q : PromiseLike U).

Arguments Plain {U} u.
Arguments Thenable {U} q.

(** A property as [t[key]] finds it: a value, or an accessor with what
    its getter comes to on [t]. Enumerable or not makes no difference to
    [t[key]]. *)
Inductive Slot :=
  | Data (r : Returned Value)
  | Accessor (get : completion (Returned Value)).

(** What [t[key]] is read from: [undefined] or [null], or else the
    properties of [t] itself followed by those of each object of its
    prototype chain (for a primitive, those of its wrapper object). *)
Inductive Subject :=
  | Nullish
  | Chain (tables : list (gmap PropertyKey Slot)).

(** The property [key] of the first object of the chain that has one. *)
Fixpoint lookup_chain (tables : list (gmap PropertyKey Slot)) (key : PropertyKey)
    : option Slot :=
  match tables with
  | [] => None
  | own :: prototypes =>
      match own !! key with
      | Some slot => Some slot
      | None => lookup_chain prototypes key
      end
  end.

(** The object at position [i] of a prototype chain is the first that has
    a property [key], and [slot] is that property. *)
Definition found_at (tables : list (gmap PropertyKey Slot)) (key : PropertyKey)
    (i : nat) (slot : Slot) : Prop :=
  exists own,
    tables !! i = Some own /\ own !! key = Some slot /\
    forall j o, j < i -> tables !! j = Some o -> o !! key = None.

(** [t[key]]: a [TypeError] for [undefined] and [null]; the value of the
    property found on [t] or, failing that, along its prototype chain;
    what its getter returns or throws; [undefined] when no object of the
    chain has the property. *)
Definition read (t : Subject) (key : PropertyKey) : completion (Returned Value) :=
  match t with
  | Nullish => Throw TypeError
  | Chain tables =>
      match lookup_chain tables key with
      | Some (Data r) => Normal r
      | Some (Accessor get) => get
      | None => Normal (Plain VUndefined)
      end
  end.

(** How the promise returned by [p.then(fn)] settles, from how [p]
    does: [fn] is applied to the value of a fulfilled promise only; what
    it throws rejects the new promise, a thenable it returns is followed,
    any other value fulfils. *)
Definition settle {T U : Type} (fn : T -> completion (Returned U)) (s : Settlement T)
    : Settlement U :=
  match s with
  | Fulfilled t =>
      match fn t with
      | Normal (Plain u) => Fulfilled u
      | Normal (Thenable q) => eventually q
      | Throw e => Rejected e
      end
  | Rejected e => Rejected e
  | Pending => Pending
  end.

Section Then.
Context {World : Type} `{!PromiseHeap World}.

(** [p.then(fn)] on a promise: a new promise object. *)
Definition then_ {T U : Type} (p : PromiseLike T) (fn : T -> completion (Returned U))
    : Js World (PromiseLike U) :=
  fun w =>
    let (id, w') := newPromise w in
    (Normal {| promise_id := id; eventually := settle fn (eventually p) |}, w').

(** [() => loader().then(fn)] *)
Definition map {T U : Type} (loader : Async World T) (fn : T -> completion (Returned U))
    : Async World U :=
  let* p := loader in
  then_ p fn.

(** [() => map(loader, t => t[key])()] *)
Definition pick (key : PropertyKey) (loader : Async World Subject) : Async World Value :=
  map loader (fun t => read t key).

(** An asynchronous loader as the loader of a source. *)
Definition asynchronous (a : Async World Value) : Js World Loaded :=
  let* p := a in
  ret (Eventually p).

End Then.

(** What a call of a loader comes to: how its promise settles, or what the
    call threw. *)
Definition outcome {World T : Type} (r : completion (PromiseLike T) * World)
    : completion (Settlement T) :=
  match fst r with
  | Normal p => Normal (eventually p)
  | Throw e => Throw e
  end.

(** A function that returns no thenable. *)
Definition plainly {T U : Type} (fn : T -> completion U) : T -> completion (Returned U) :=
  fun t =>
    match fn t with
    | Normal u => Normal (Plain u)
    | Throw e => Throw e
    end.

(** [x => gn(fn(x))] *)
Definition and_then {T U V : Type} (fn : T -> completion U) (gn : U -> completion V)
    : T -> completion V :=
  fun t =>
    match fn t with
    | Normal u => gn u
    | Throw e => Throw e
    end.

(** A world that counts the promises made. *)
#[global] Instance nat_PromiseHeap : PromiseHeap nat := {
  newPromise n := (n, S n)
}.

End Adapters.

(** ** The React binding: [useTranslation] *)

Module React.

(** [[...languages, ...(ctx ? ctx[0] : [])]] *)
Definition merged (languages : list string) (ctx : option (list string)) : list string :=
  languages ++ default [] ctx.

(** [merged.toString()], that is [merged.join(",")]. *)
Definition toString (a : list string) : string := String.concat "," a.

(** [queryKey: [merged.toString()]] *)
Definition queryKey (languages : list string) (ctx : option (list string)) : list string :=
  [toString (merged languages ctx)].

Section Hook.
Context {World : Type}.

(** [tag(fallback.loader(), fallback.tag)]: what the loader returns is
    tagged as it is, without [await]; a promise object has no own
    enumerable property. *)
Definition placeholder (I : Internationalization World) : Js World Value :=
  let* x := loader (fallback I) in
  ret (tag (match x with Immediately t => t | Eventually _ => VObject ∅ end)
           (VString (Resource.tag (fallback I)))).

(** [translation ?? tag(...)], where [translation] is the data of the
    query, [undefined] until [resolve] is fulfilled. *)
Definition translation_or_placeholder (I : Internationalization World)
    (translation : option Value) : Js World Value :=
  match translation with
  | Some t => ret t
  | None => placeholder I
  end.

End Hook.

End React.

(** ** Sources that score alike *)

Section Alike.
Context {World : Type}.

(** Two predicates whose results have the same magnitude, and that throw
    and change the world alike. *)
Definition same_magnitude (p q : Predicate (World := World)) : Prop :=
  forall tag w,
    match p tag w, q tag w with
    | (Normal u, w1), (Normal v, w2) => abs (Number u) = abs (Number v) /\ w1 = w2
    | (Throw e1, w1), (Throw e2, w2) => e1 = e2 /\ w1 = w2
    | _, _ => False
    end.

Definition alike (s s' : Source World) : Prop :=
  Resource.tag s' = Resource.tag s /\
  loader s' = loader s /\
  same_magnitude (predicate s) (predicate s').

(** [s'] is [s], except that the factor of its [weighted] predicate may be
    the opposite. *)
Definition reweighted (s s' : Source World) : Prop :=
  Resource.tag s' = Resource.tag s /\
  loader s' = loader s /\
  (predicate s' = predicate s \/
   exists factor p,
     predicate s = weighted factor p /\ predicate s' = weighted (neg factor) p).

End Alike.

(** ** What the properties below speak of *)

(** The comma, code 44, and whether a string holds one. *)
Definition comma : Ascii.ascii := Ascii.ascii_of_nat 44.

Fixpoint has_comma (s : string) : bool :=
  match s with
  | EmptyString => false
  | String c s' => Ascii.eqb c comma || has_comma s'
  end.

(** The regular expression of the same pattern without flags. *)
Definition flagless (R : JsRegExp.RegExp) : JsRegExp.RegExp := {|
  JsRegExp.re_id := JsRegExp.re_id R;
  JsRegExp.matcher := JsRegExp.matcher R;
  JsRegExp.global := false;
  JsRegExp.sticky := false
|}.

Module Sample.

(** English by a weight of 2, and of -2. *)
Definition en_twice : Source unit := {|
  Resource.tag := "en";
  predicate := weighted two (startsWith "en");
  loader := ret (Immediately (Example.hello "Hello!"))
|}.

Definition en_minus_twice : Source unit := {|
  Resource.tag := "en";
  predicate := weighted (neg two) (startsWith "en");
  loader := ret (Immediately (Example.hello "Hello!"))
|}.

(** English by the mean of two weighted predicates, the weights of one
    sign, and of opposite signs. *)
Definition en_mean_twice : Source unit := {|
  Resource.tag := "en";
  predicate := mean [weighted two (startsWith "en"); weighted two (endsWith "US")];
  loader := ret (Immediately (Example.hello "Hello!"))
|}.

Definition en_mean_opposed : Source unit := {|
  Resource.tag := "en";
  predicate := mean [weighted two (startsWith "en"); weighted (neg two) (endsWith "US")];
  loader := ret (Immediately (Example.hello "Hello!"))
|}.

(** [() => import("./languages/zh-CN")]: the promise of a module with a
    default export; a module namespace object has no prototype. *)
Definition zh_module : gmap PropertyKey Adapters.Slot :=
  {[ PString "default" := Adapters.Data (Adapters.Plain (Example.hello "你好！")) ]}.

Definition importing_module : Async nat Adapters.Subject :=
  ret {| promise_id := 100; eventually := Fulfilled (Adapters.Chain [zh_module]) |}.

(** A loader of an object that has no property [default] of its own and
    inherits one from its prototype. *)
Definition inheriting : Async nat Adapters.Subject :=
  ret {| promise_id := 101; eventually := Fulfilled (Adapters.Chain [∅; zh_module]) |}.

(** The sources of the documentation, the second with its [pick]. *)
Definition en_US : Source nat := {|
  Resource.tag := "en-US";
  predicate := mean [startsWith "en"; startsWith "en-US"];
  loader := ret (Immediately (Example.hello "Hello!"))
|}.

Definition zh_CN : Source nat := {|
  Resource.tag := "zh-CN";
  predicate := mean [startsWith "zh"; startsWith "zh-CN"];
  loader := Adapters.asynchronous (Adapters.pick (PString "default") importing_module)
|}.

End Sample.

(** * Properties *)

(** ** The order of numbers *)

Ltac order_cases :=
  repeat match goal with
  | |- context [(?a ?= ?b)%Z] => destruct (Z.compare_spec a b)
  | H : context [(?a ?= ?b)%Z] |- _ => destruct (Z.compare_spec a b)
  | |- context [Pos.compare_cont Eq ?a ?b] =>
      change (Pos.compare_cont Eq a b) with (Pos.compare a b);
      destruct (Pos.compare_spec a b)
  | H : context [Pos.compare_cont Eq ?a ?b] |- _ =>
      change (Pos.compare_cont Eq a b) with (Pos.compare a b) in H;
      destruct (Pos.compare_spec a b)
  end.

(** Comparisons of numbers are decided by cases on the two or three numbers
    involved; finite numbers of one sign compare by exponent, then
    mantissa. *)
Ltac number_order :=
  unfold gt, ge, eq, isNaN, abs, neg, zero, SFltb, SFleb, SFeqb, SFcompare;
  repeat match goal with
  | x : number |- _ => destruct x as [[]|[]| |[] ? ?]
  end;
  intros; simpl in *; try done;
  order_cases; simpl in *; subst; try done; try lia.

Lemma gt_not_NaN (a b : number) :
  gt a b = true -> isNaN a = false /\ isNaN b = false.
Proof. number_order. Qed.

Lemma ge_refl (a : number) : isNaN a = false -> ge a a = true.
Proof. number_order. Qed.

Lemma eq_ge (a b : number) : eq a b = true -> ge a b = true.
Proof. number_order. Qed.

Lemma eq_sym_number (a b : number) : eq a b = true -> eq b a = true.
Proof. number_order. Qed.

Lemma gt_ge (a b : number) : gt a b = true -> ge a b = true.
Proof. number_order. Qed.

Lemma not_gt_ge (a b : number) :
  isNaN a = false -> isNaN b = false -> gt a b = false -> ge b a = true.
Proof. number_order. Qed.

Lemma ge_not_gt (a b : number) : ge b a = true -> gt a b = false.
Proof. number_order. Qed.

Lemma ge_trans (a b c : number) : ge a b = true -> ge b c = true -> ge a c = true.
Proof. number_order. Qed.

Lemma gt_ge_trans (a b c : number) : gt a b = true -> ge b c = true -> gt a c = true.
Proof. number_order. Qed.

Lemma ge_gt_trans (a b c : number) : ge a b = true -> gt b c = true -> gt a c = true.
Proof. number_order. Qed.

Lemma ge_antisym (a b : number) : ge a b = true -> ge b a = true -> eq a b = true.
Proof. number_order. Qed.

Lemma ge_not_NaN (a b : number) :
  ge a b = true -> isNaN a = false /\ isNaN b = false.
Proof. number_order. Qed.

Lemma abs_neg (x : number) : abs (neg x) = abs x.
Proof. by destruct x. Qed.

Lemma abs_not_negative (x : number) : gt zero (abs x) = false.
Proof. number_order. Qed.

Lemma gt_not_ge (a b : number) : gt a b = true -> ge b a = false.
Proof. number_order. Qed.

Lemma not_gt_mono (x m M : number) :
  gt x m = false -> ge M m = true -> gt x M = false.
Proof. number_order. Qed.

Lemma not_gt_gt_not_ge (x m M : number) :
  gt x m = false -> gt M m = true -> ge x M = false.
Proof. number_order. Qed.

Lemma eq_not_NaN (a b : number) : eq a b = true -> isNaN a = false /\ isNaN b = false.
Proof. number_order. Qed.

Lemma not_ge_eq (z M x : number) : ge z M = false -> eq M x = true -> eq z x = false.
Proof. number_order. Qed.

Lemma eq_ge_r (a b : number) : eq a b = true -> ge b a = true.
Proof. number_order. Qed.

Lemma positive_below (x M : number) :
  gt x zero = true -> isNaN M = false -> gt x M = false -> gt M zero = true.
Proof. number_order. Qed.

(** ** The two loops of [resolve] *)

Section ResolverFacts.
Context {World : Type}.
Implicit Types (ss : list (Source World)) (sc : list number) (best : number * nat).

Lemma select_best_spec sc : forall i m0 k0,
  isNaN m0 = false ->
  isNaN (fst (select_best sc i (m0, k0))) = false /\
  ge (fst (select_best sc i (m0, k0))) m0 = true /\
  (forall n x, sc !! n = Some x -> gt x (fst (select_best sc i (m0, k0))) = false) /\
  (select_best sc i (m0, k0) = (m0, k0) \/
   exists n, snd (select_best sc i (m0, k0)) = i + n /\
     sc !! n = Some (fst (select_best sc i (m0, k0))) /\
     gt (fst (select_best sc i (m0, k0))) m0 = true /\
     forall n' x, n' < n -> sc !! n' = Some x ->
       ge x (fst (select_best sc i (m0, k0))) = false).
Proof.
  induction sc as [|x sc IH]; intros i m0 k0 Hm0; simpl.
  - split_and!; [done | by apply ge_refl | by intros n x; rewrite lookup_nil | by left].
  - destruct (gt x m0) eqn:Hx.
    + destruct (gt_not_NaN _ _ Hx) as [Hxn _].
      destruct (IH (S i) x i Hxn) as (HN & Hge & Hall & Hsel).
      split_and!; [done | | | ].
      * eapply ge_trans; [exact Hge | by apply gt_ge].
      * intros [|n] y Hy; simpl in Hy.
        -- injection Hy as <-. by apply ge_not_gt.
        -- by eapply Hall.
      * right. destruct Hsel as [Hsel | (n & HK & Hn & Hgt & Hbefore)].
        -- exists 0. rewrite Hsel. simpl. split_and!; [lia | done | done | intros; lia].
        -- exists (S n). split_and!; [lia | done | by eapply gt_ge_trans; [exact Hgt | apply gt_ge] | ].
           intros [|n'] y Hlt Hy; simpl in Hy.
           ++ injection Hy as <-. by apply gt_not_ge.
           ++ eapply Hbefore; [|exact Hy]. lia.
    + destruct (IH (S i) m0 k0 Hm0) as (HN & Hge & Hall & Hsel).
      split_and!; [done | done | | ].
      * intros [|n] y Hy; simpl in Hy.
        -- injection Hy as <-. by eapply not_gt_mono.
        -- by eapply Hall.
      * destruct Hsel as [Hsel | (n & HK & Hn & Hgt & Hbefore)]; [by left | right].
        exists (S n). split_and!; [lia | done | done | ].
        intros [|n'] y Hlt Hy; simpl in Hy.
        ++ injection Hy as <-. by eapply not_gt_gt_not_ge.
        ++ eapply Hbefore; [|exact Hy]. lia.
Qed.

Lemma scores_nil locale (w : World) : scores [] locale w = (Normal [], w).
Proof. done. Qed.

Lemma scores_cons (s : Source World) ss locale w :
  scores (s :: ss) locale w =
  match predicate s locale w with
  | (Normal v, w1) =>
      match scores ss locale w1 with
      | (Normal sc, w2) => (Normal (abs (Number v) :: sc), w2)
      | (Throw e, w2) => (Throw e, w2)
      end
  | (Throw e, w1) => (Throw e, w1)
  end.
Proof.
  unfold scores, bind, ret; simpl. unfold bind, ret.
  destruct (predicate s locale w) as [[v|e] w1]; [|done].
  by destruct (results (map predicate ss) locale w1) as [[vs|e] w2].
Qed.


(** One locale: the loop over the sources keeps the best of their scores. *)
Lemma scan_sources_scores ss : forall i locale best w tr sc w',
  scores ss locale w = (Normal sc, w') ->
  scan_sources ss i locale best (w, tr) =
  (Normal (select_best sc i best), (w', tr ++ predicate_calls i (length ss) locale)).
Proof.
  induction ss as [|s ss IH]; intros i locale best w tr sc w'.
  - rewrite scores_nil. intros [= <- <-]. simpl. unfold ret, predicate_calls. simpl.
    by rewrite app_nil_r.
  - rewrite scores_cons. simpl. unfold bind at 1, call. simpl.
    destruct (predicate s locale w) as [[v|e] w1]; [|done].
    destruct (scores ss locale w1) as [[sc'|e] w2] eqn:E; [|done].
    intros [= <- <-]. simpl.
    rewrite (IH _ _ _ _ _ _ _ E). unfold predicate_calls. simpl.
    by rewrite <- app_assoc.
Qed.

(** A predicate that throws ends the loop; the sources after it are not
    asked. *)
Lemma scan_sources_throws ss : forall i locale best w tr e w',
  scores ss locale w = (Throw e, w') ->
  exists n, n < length ss /\
    scan_sources ss i locale best (w, tr) =
    (Throw e, (w', tr ++ predicate_calls i (S n) locale)).
Proof.
  induction ss as [|s ss IH]; intros i locale best w tr e w'.
  - by rewrite scores_nil.
  - rewrite scores_cons. simpl. unfold bind at 1, call. simpl.
    destruct (predicate s locale w) as [[v|e'] w1].
    + destruct (scores ss locale w1) as [[sc'|e''] w2] eqn:E; [done|].
      intros [= <- <-].
      destruct (IH (S i) locale (if gt (abs (Number v)) (fst best)
                                 then (abs (Number v), i) else best)
                   w1 (tr ++ [CallPredicate i locale]) _ _ E) as (n & Hn & ->).
      exists (S n). split; [lia|]. unfold predicate_calls. simpl.
      by rewrite <- app_assoc.
    + intros [= <- <-]. exists 0. split; [lia | done].
Qed.

Lemma scan_sources_inv ss i locale best w tr best' st' :
  scan_sources ss i locale best (w, tr) = (Normal best', st') ->
  exists sc, scores ss locale w = (Normal sc, fst st') /\
    best' = select_best sc i best /\
    snd st' = tr ++ predicate_calls i (length ss) locale.
Proof.
  destruct (scores ss locale w) as [[sc|e] w'] eqn:E.
  - rewrite (scan_sources_scores _ _ _ _ _ _ _ _ E). intros [= <- <-]. by exists sc.
  - destruct (scan_sources_throws _ i locale best w tr _ _ E) as (n & _ & ->). done.
Qed.

Lemma scan_locales_cons (ss : list (Source World)) l rest best st :
  scan_locales ss (l :: rest) best st =
  match scan_sources ss 0 l best st with
  | (Normal b, st') =>
      if gt (fst b) zero then (Normal b, st') else scan_locales ss rest b st'
  | (Throw e, st') => (Throw e, st')
  end.
Proof.
  cbn [scan_locales]. unfold bind.
  destruct (scan_sources ss 0 l best st) as [[b|e] st']; [|done].
  by destruct (gt (fst b) zero).
Qed.

Lemma select_best_not_NaN sc i best :
  isNaN (fst best) = false -> isNaN (fst (select_best sc i best)) = false.
Proof. destruct best as [m k]. intros H. by destruct (select_best_spec sc i m k H). Qed.

Lemma scan_locales_not_NaN ss locales : forall best st best' st',
  isNaN (fst best) = false ->
  scan_locales ss locales best st = (Normal best', st') ->
  isNaN (fst best') = false.
Proof.
  induction locales as [|l locales IH]; intros best [w tr] best' st' HN; simpl.
  - by intros [= <- <-].
  - unfold bind.
    destruct (scan_sources ss 0 l best (w, tr)) as [[b1|e] st1] eqn:E; [|done].
    destruct (scan_sources_inv _ _ _ _ _ _ _ _ E) as (sc & _ & -> & _).
    pose proof (select_best_not_NaN sc 0 best HN) as HN1.
    destruct (gt (fst (select_best sc 0 best)) zero).
    + by intros [= <- <-].
    + by apply IH.
Qed.

(** The loop over the locales stops at the first locale after which [max]
    is positive. *)
Lemma scan_locales_app ss pre : forall rest best st,
  gt (fst best) zero = false ->
  scan_locales ss (pre ++ rest) best st =
  match scan_locales ss pre best st with
  | (Normal best', st') =>
      if gt (fst best') zero then (Normal best', st') else scan_locales ss rest best' st'
  | (Throw e, st') => (Throw e, st')
  end.
Proof.
  induction pre as [|l pre IH]; intros rest best st Hb; simpl.
  - unfold ret. by rewrite Hb.
  - unfold bind.
    destruct (scan_sources ss 0 l best st) as [[b1|e] st1]; [|done].
    destruct (gt (fst b1) zero) eqn:Hb1.
    + unfold ret. by rewrite Hb1.
    + by apply IH.
Qed.

End ResolverFacts.

(** ** Which source [resolve] selects *)

Section ResolveSelection.
Context {World : Type}.
Implicit Types (fallback : Source World) (others : list (Source World)).

Lemma resolve_winner (I : Internationalization World) locales st :
  resolve I locales st =
  match winner I locales st with
  | (Normal k, st') => load I k st'
  | (Throw e, st') => (Rejected e, st')
  end.
Proof.
  unfold resolve, winner, bind, ret.
  by destruct (scan_locales (sources I) locales (zero, 0) st) as [[best|e] st'].
Qed.

Lemma winner_single fallback others locale w tr sc w1 :
  scores (fallback :: others) locale w = (Normal sc, w1) ->
  winner (new fallback others) [locale] (w, tr) =
  (Normal (snd (select_best sc 0 (zero, 0))),
   (w1, tr ++ predicate_calls 0 (S (length others)) locale)).
Proof.
  intros Hsc. unfold winner, bind. rewrite scan_locales_cons.
  change (sources (new fallback others)) with (fallback :: others).
  rewrite (scan_sources_scores _ _ _ _ _ _ _ _ Hsc). simpl.
  by destruct (gt (fst (select_best sc 0 (zero, 0))) zero).
Qed.

(** C1. A query of one locale: of two sources whose scores are equal the
    later one is never selected; when their score is the highest, the
    selected source is at most as far from the fallback as the earlier one,
    and when it is positive too, the first source with that score is
    selected. *)
Theorem resolve_tie_earlier_wins fallback others locale w tr sc w1 i j x y :
  scores (fallback :: others) locale w = (Normal sc, w1) ->
  i < j -> sc !! i = Some x -> sc !! j = Some y -> eq x y = true ->
  exists k st1,
    winner (new fallback others) [locale] (w, tr) = (Normal k, st1) /\
    resolve (new fallback others) [locale] (w, tr) = load (new fallback others) k st1 /\
    k <> j /\
    ((forall m z, sc !! m = Some z -> gt z x = false) ->
     k <= i /\
     (gt x zero = true ->
      exists z, sc !! k = Some z /\ eq z x = true /\
        forall m z', m < k -> sc !! m = Some z' -> eq z' x = false)).
Proof.
  intros Hsc Hij Hi Hj Hxy.
  pose proof (winner_single _ _ _ _ tr _ _ Hsc) as Hw.
  eexists _, _. split; [exact Hw|]. split; [by rewrite resolve_winner, Hw|].
  destruct (eq_not_NaN _ _ Hxy) as [Hxn Hyn].
  destruct (select_best_spec sc 0 zero 0 eq_refl) as (HN & Hge & Hall & Hsel).
  destruct (select_best sc 0 (zero, 0)) as [M K]. simpl in *.
  split.
  - destruct Hsel as [[= -> ->] | (n & -> & Hn & Hgt & Hbefore)]; [lia|].
    intros ->. assert (y = M) as -> by congruence.
    pose proof (Hbefore i x ltac:(lia) Hi) as Hlt.
    by rewrite (eq_ge _ _ Hxy) in Hlt.
  - intros Htop.
    destruct Hsel as [[= -> ->] | (n & -> & Hn & Hgt & Hbefore)].
    + split; [lia|]. intros Hpos. pose proof (Hall i x Hi) as Hx. congruence.
    + assert (eq M x = true) as HMx.
      { apply ge_antisym.
        - apply not_gt_ge; [done | done | by eapply Hall].
        - apply not_gt_ge; [done | done | by eapply Htop]. }
      assert (n <= i) as Hle.
      { destruct (decide (n <= i)) as [|Hgt']; [done|].
        pose proof (Hbefore i x ltac:(lia) Hi) as Hlt.
        by rewrite (eq_ge_r _ _ HMx) in Hlt. }
      split; [done|]. intros _. exists M. split_and!; [done | done |].
      intros m z' Hm Hz'. eapply not_ge_eq; [|exact HMx].
      eapply Hbefore; [|exact Hz']. lia.
Qed.

End ResolveSelection.

(** ** Locales in order of preference, and the fallback *)

Section ResolveLocales.
Context {World : Type}.
Implicit Types (fallback : Source World) (others : list (Source World)).

Lemma load_fallback_content fallback others (st1 : State) x t w2 :
  loader fallback (fst st1) = (Normal x, w2) -> await x = Fulfilled t ->
  load (new fallback others) 0 st1 =
  (Fulfilled (tag t (VString (Resource.tag fallback))), (w2, snd st1 ++ [CallLoader 0])).
Proof. intros H Hx. unfold load, call. simpl. by rewrite H, Hx. Qed.

Lemma select_best_no_positive sc : forall i k0,
  Forall (fun x => gt x zero = false) sc -> select_best sc i (zero, k0) = (zero, k0).
Proof.
  induction sc as [|x sc IH]; intros i k0 H; [done|].
  inversion H as [|? ? Hx Hsc]; subst. simpl. rewrite Hx. by apply IH.
Qed.

Lemma scores_no_positive (ss : list (Source World)) locale :
  (forall s w, s ∈ ss ->
     exists v w', predicate s locale w = (Normal v, w') /\ gt (abs (Number v)) zero = false) ->
  forall w, exists sc w',
    scores ss locale w = (Normal sc, w') /\ Forall (fun x => gt x zero = false) sc.
Proof.
  induction ss as [|s ss IH]; intros H w.
  - exists [], w. by rewrite scores_nil.
  - destruct (H s w ltac:(left)) as (v & w1 & Hv & Hpos).
    destruct (IH (fun s' w' Hs' => H s' w' ltac:(by right)) w1) as (sc & w2 & Hsc & Hall).
    exists (abs (Number v) :: sc), w2. rewrite scores_cons, Hv, Hsc. by split; [|constructor].
Qed.

Lemma scan_locales_no_positive (ss : list (Source World)) locales :
  (forall locale s w, locale ∈ locales -> s ∈ ss ->
     exists v w', predicate s locale w = (Normal v, w') /\ gt (abs (Number v)) zero = false) ->
  forall st, exists st1, scan_locales ss locales (zero, 0) st = (Normal (zero, 0), st1).
Proof.
  induction locales as [|l locales IH]; intros H [w tr].
  - by eexists.
  - destruct (scores_no_positive ss l (fun s w' Hs => H l s w' ltac:(left) Hs) w)
      as (sc & w1 & Hsc & Hall).
    rewrite scan_locales_cons, (scan_sources_scores _ _ _ _ _ _ _ _ Hsc).
    rewrite (select_best_no_positive _ _ _ Hall). simpl.
    apply IH. intros locale s w' Hl Hs. apply H; [by right | done].
Qed.

(** C2. When no source scored above 0 for the locales before [locale] and
    one does for [locale], the locales after it change nothing: [resolve]
    does what it does without them, and the source it selects is the best
    for the scores of [locale] on top of what the earlier locales left. *)
Theorem resolve_first_positive_locale_wins fallback others pre locale post
    (st st1 : State) best1 sc w2 k x :
  scan_locales (fallback :: others) pre (zero, 0) st = (Normal best1, st1) ->
  gt (fst best1) zero = false ->
  scores (fallback :: others) locale (fst st1) = (Normal sc, w2) ->
  sc !! k = Some x -> gt x zero = true ->
  resolve (new fallback others) (pre ++ locale :: post) st =
    resolve (new fallback others) (pre ++ [locale]) st /\
  winner (new fallback others) (pre ++ locale :: post) st =
    (Normal (snd (select_best sc 0 best1)),
     (w2, snd st1 ++ predicate_calls 0 (S (length others)) locale)).
Proof.
  intros Hpre Hb1 Hsc Hk Hx.
  assert (isNaN (fst best1) = false) as HN1
    by (eapply scan_locales_not_NaN; [|exact Hpre]; done).
  destruct best1 as [m1 k1], st1 as [w1 tr1]. simpl in *.
  destruct (select_best_spec sc 0 m1 k1 HN1) as (HN & _ & Hall & _).
  pose proof (positive_below _ _ Hx HN (Hall _ _ Hk)) as Hpos.
  assert (forall rest,
    scan_locales (fallback :: others) (pre ++ locale :: rest) (zero, 0) st =
    (Normal (select_best sc 0 (m1, k1)),
     (w2, tr1 ++ predicate_calls 0 (S (length others)) locale))) as Hscan.
  { intros rest. rewrite scan_locales_app by done. rewrite Hpre. simpl fst. rewrite Hb1.
    rewrite scan_locales_cons, (scan_sources_scores _ _ _ _ _ _ _ _ Hsc).
    by rewrite Hpos. }
  split.
  - unfold resolve. change (sources (new fallback others)) with (fallback :: others).
    by rewrite !Hscan.
  - unfold winner, bind, ret. change (sources (new fallback others)) with (fallback :: others).
    by rewrite Hscan.
Qed.

(** What [tag] makes of a payload: its own enumerable properties and the
    tag on top. *)
Lemma tag_content (t v : Value) :
  tag t v = VObject (<[ Tag := v ]> (own_enumerable t)) /\
  get (tag t v) Tag = v /\
  forall s, get (tag t v) (PString s) = default VUndefined (own_enumerable t !! PString s).
Proof.
  assert (tag t v = VObject (<[ Tag := v ]> (own_enumerable t))) as ->.
  { unfold tag, Object_assign. simpl.
    by rewrite (right_id_L ∅ (∪)), insert_union_singleton_l. }
  split_and!; [done | simpl; by rewrite lookup_insert_eq |].
  intros s. simpl. by rewrite lookup_insert_ne.
Qed.

(** C3. With no locale asked for, or when no source scores above 0 for any
    locale asked for, the fallback is selected and nothing else is loaded:
    [resolve] is the load of the fallback. When the loader of the fallback
    returns content, at once or through a promise that is fulfilled,
    [resolve] is fulfilled with that content tagged: an object that has,
    under [Tag], the tag of the fallback and, for content that is copied
    key by key, the properties of the content. *)
Theorem resolve_no_match_fallback fallback others locales (st : State) :
  (locales = [] \/
   forall locale s w, locale ∈ locales -> s ∈ fallback :: others ->
     exists v w', predicate s locale w = (Normal v, w') /\
                  gt (abs (Number v)) zero = false) ->
  exists st1,
    winner (new fallback others) locales st = (Normal 0, st1) /\
    resolve (new fallback others) locales st = load (new fallback others) 0 st1 /\
    (locales = [] -> st1 = st) /\
    forall x t w2,
      loader fallback (fst st1) = (Normal x, w2) ->
      (x = Immediately t \/ exists p, x = Eventually p /\ eventually p = Fulfilled t) ->
      exists content,
        resolve (new fallback others) locales st =
          (Fulfilled content, (w2, snd st1 ++ [CallLoader 0])) /\
        content = tag t (VString (Resource.tag fallback)) /\
        get content Tag = VString (Resource.tag fallback) /\
        (copied_by_key t ->
           content
             = VObject (<[ Tag := VString (Resource.tag fallback) ]> (own_enumerable t)) /\
           forall s,
             get content (PString s) = default VUndefined (own_enumerable t !! PString s)).
Proof.
  intros H.
  assert (exists st1,
    scan_locales (fallback :: others) locales (zero, 0) st = (Normal (zero, 0), st1) /\
    (locales = [] -> st1 = st)) as (st1 & Hscan & Hst).
  { destruct H as [-> | H].
    - by exists st.
    - destruct (scan_locales_no_positive _ _ H st) as (st1 & Hscan).
      exists st1. split; [done|]. intros ->. simpl in Hscan. by injection Hscan. }
  assert (winner (new fallback others) locales st = (Normal 0, st1)) as Hw.
  { unfold winner, bind, ret. change (sources (new fallback others)) with (fallback :: others).
    by rewrite Hscan. }
  exists st1. split_and!; [done | by rewrite resolve_winner, Hw | done |].
  intros x t w2 Hload Hx.
  assert (await x = Fulfilled t) as Hawait
    by (by destruct Hx as [-> | (p & -> & Hp)]).
  destruct (tag_content t (VString (Resource.tag fallback))) as (Htag & Hget & Hfields).
  exists (tag t (VString (Resource.tag fallback))).
  split_and!; [| done | done | by rewrite <- Htag].
  rewrite resolve_winner, Hw. by eapply load_fallback_content.
Qed.

End ResolveLocales.

(** ** Scores are magnitudes *)

Section ResolveMagnitude.
Context {World : Type}.
Implicit Types (fallback : Source World) (others : list (Source World)).

Lemma negated_score (p : Predicate (World := World)) locale w :
  negated p locale w =
  match p locale w with
  | (Normal v, w') => (Normal (Num (neg (Number v))), w')
  | (Throw e, w') => (Throw e, w')
  end.
Proof. unfold negated, bind, ret. by destruct (p locale w) as [[v|e] w']. Qed.

Lemma scan_sources_sign_flipped (ss ss' : list (Source World)) :
  Forall2 sign_flipped ss ss' ->
  forall i locale best st,
    scan_sources ss' i locale best st = scan_sources ss i locale best st.
Proof.
  induction 1 as [|s s' ss ss' (_ & _ & Hp) _ IH]; intros i locale best [w tr]; [done|].
  cbn [scan_sources]. unfold bind, call. simpl.
  destruct Hp as [-> | ->].
  - destruct (predicate s locale w) as [[v|e] w']; [|done]. apply IH.
  - rewrite negated_score.
    destruct (predicate s locale w) as [[v|e] w']; [|done].
    simpl. rewrite abs_neg. apply IH.
Qed.

Lemma scan_locales_sign_flipped (ss ss' : list (Source World)) :
  Forall2 sign_flipped ss ss' ->
  forall locales best st,
    scan_locales ss' locales best st = scan_locales ss locales best st.
Proof.
  intros H. induction locales as [|l locales IH]; intros best st; [done|].
  rewrite !scan_locales_cons, (scan_sources_sign_flipped _ _ H).
  destruct (scan_sources ss 0 l best st) as [[b|e] st']; [|done].
  by rewrite IH.
Qed.

Lemma sign_flipped_nth (ss ss' : list (Source World)) d d' k :
  Forall2 sign_flipped ss ss' -> sign_flipped d d' ->
  sign_flipped (nth k ss d) (nth k ss' d').
Proof.
  intros H Hd. revert k. induction H as [|s s' ss ss' Hs _ IH]; intros [|k]; simpl; auto.
Qed.

(** C4. The score of a source is the absolute value of what its predicate
    returns, read as a number ([true] as 1, [false] as 0); sources whose
    predicates return the opposite numbers are selected, loaded and traced
    by [resolve] exactly as the sources they come from. *)
Theorem resolve_ignores_sign fallback others fallback' others' :
  sign_flipped fallback fallback' ->
  Forall2 sign_flipped others others' ->
  (forall locales st,
     winner (new fallback' others') locales st = winner (new fallback others) locales st /\
     resolve (new fallback' others') locales st = resolve (new fallback others) locales st) /\
  (forall (s : Source World) i locale best w tr v w',
     predicate s locale w = (Normal v, w') ->
     scan_sources [s] i locale best (w, tr) =
     (Normal (if gt (abs (Number v)) (fst best) then (abs (Number v), i) else best),
      (w', tr ++ [CallPredicate i locale]))) /\
  Number (Bool true) = one /\ Number (Bool false) = zero /\
  (forall x, abs (Number (Num (neg x))) = abs (Number (Num x))).
Proof.
  intros Hf Ho.
  assert (Forall2 sign_flipped (fallback :: others) (fallback' :: others')) as Hss
    by by constructor.
  split_and!; [| |done|done|by intros x; apply abs_neg].
  - intros locales st.
    assert (winner (new fallback' others') locales st =
            winner (new fallback others) locales st) as Hw.
    { unfold winner, bind. simpl sources. by rewrite (scan_locales_sign_flipped _ _ Hss). }
    split; [done|]. rewrite !resolve_winner, Hw.
    destruct (winner (new fallback others) locales st) as [[k|e] st']; [|done].
    unfold load. simpl sources. simpl Core.fallback.
    destruct (sign_flipped_nth _ _ fallback fallback' k Hss Hf) as (-> & -> & _).
    done.
  - intros s i locale best w tr v w' Hv. cbn [scan_sources]. unfold bind, call, ret. simpl.
    by rewrite Hv.
Qed.

End ResolveMagnitude.

(** ** Failures *)

Section ResolveFailure.
Context {World : Type}.
Implicit Types (fallback : Source World) (others : list (Source World)).

Lemma loader_calls_predicate tr i locale :
  loader_calls (tr ++ [CallPredicate i locale]) = loader_calls tr.
Proof. unfold loader_calls. rewrite omap_app. simpl. by rewrite app_nil_r. Qed.

Lemma loader_calls_loader tr k :
  loader_calls (tr ++ [CallLoader k]) = loader_calls tr ++ [k].
Proof. unfold loader_calls. by rewrite omap_app. Qed.

Lemma scan_sources_app (ss1 ss2 : list (Source World)) : forall i locale best st,
  scan_sources (ss1 ++ ss2) i locale best st =
  match scan_sources ss1 i locale best st with
  | (Normal b, st') => scan_sources ss2 (i + length ss1) locale b st'
  | (Throw e, st') => (Throw e, st')
  end.
Proof.
  induction ss1 as [|s ss1 IH]; intros i locale best st.
  - simpl. unfold ret. by rewrite Nat.add_0_r.
  - simpl. unfold bind.
    destruct (call (CallPredicate i locale) (predicate s locale) st) as [[v|e] st1]; [|done].
    rewrite IH. by replace (S i + length ss1) with (i + S (length ss1)) by lia.
Qed.

(** The loops call predicates only. *)
Lemma scan_sources_loader_calls (ss : list (Source World)) : forall i locale best st r st',
  scan_sources ss i locale best st = (r, st') ->
  loader_calls (snd st') = loader_calls (snd st).
Proof.
  induction ss as [|s ss IH]; intros i locale best [w tr] r st'; simpl.
  - by intros [= <- <-].
  - unfold bind, call. simpl.
    destruct (predicate s locale w) as [[v|e] w1].
    + intros H. apply IH in H. rewrite H. simpl. apply loader_calls_predicate.
    + intros [= <- <-]. simpl. apply loader_calls_predicate.
Qed.

Lemma scan_locales_loader_calls (ss : list (Source World)) locales : forall best st r st',
  scan_locales ss locales best st = (r, st') ->
  loader_calls (snd st') = loader_calls (snd st).
Proof.
  induction locales as [|l locales IH]; intros best st r st'.
  - by intros [= <- <-].
  - rewrite scan_locales_cons.
    destruct (scan_sources ss 0 l best st) as [[b|e] st1] eqn:E;
      apply scan_sources_loader_calls in E.
    + destruct (gt (fst b) zero).
      * by intros [= <- <-].
      * intros H. apply IH in H. congruence.
    + by intros [= <- <-].
Qed.

Lemma winner_loader_calls (I : Internationalization World) locales st r st' :
  winner I locales st = (r, st') -> loader_calls (snd st') = loader_calls (snd st).
Proof.
  unfold winner, bind, ret.
  destruct (scan_locales (sources I) locales (zero, 0) st) as [[b|e] st1] eqn:E;
    apply scan_locales_loader_calls in E; by intros [= <- <-].
Qed.

(** C8. A predicate that throws while the sources are scored makes
    [resolve] reject with what it threw, and no loader is called; a loader
    of the selected source that throws, or whose promise rejects, makes
    [resolve] reject with that same value, and it is the only loader
    called. *)
Theorem resolve_failure_propagates fallback others locales (st : State) :
  (forall pre locale post ss1 s ss2 best1 st1 best2 w2 tr2 e w3,
     locales = pre ++ locale :: post ->
     fallback :: others = ss1 ++ s :: ss2 ->
     scan_locales (fallback :: others) pre (zero, 0) st = (Normal best1, st1) ->
     gt (fst best1) zero = false ->
     scan_sources ss1 0 locale best1 st1 = (Normal best2, (w2, tr2)) ->
     predicate s locale w2 = (Throw e, w3) ->
     resolve (new fallback others) locales st =
       (Rejected e, (w3, tr2 ++ [CallPredicate (length ss1) locale])) /\
     loader_calls (tr2 ++ [CallPredicate (length ss1) locale]) = loader_calls (snd st)) /\
  (forall k st1 e w2,
     winner (new fallback others) locales st = (Normal k, st1) ->
     (loader (nth k (fallback :: others) fallback) (fst st1) = (Throw e, w2) \/
      exists p, loader (nth k (fallback :: others) fallback) (fst st1)
                  = (Normal (Eventually p), w2) /\
                eventually p = Rejected e) ->
     resolve (new fallback others) locales st =
       (Rejected e, (w2, snd st1 ++ [CallLoader k])) /\
     loader_calls (snd st1 ++ [CallLoader k]) = loader_calls (snd st) ++ [k]).
Proof.
  split.
  - intros pre locale post ss1 s ss2 best1 st1 best2 w2 tr2 e w3 -> Hss Hpre Hb1 Hss1 Hs.
    assert (scan_locales (fallback :: others) (pre ++ locale :: post) (zero, 0) st =
            (Throw e, (w3, tr2 ++ [CallPredicate (length ss1) locale]))) as Hscan.
    { rewrite scan_locales_app by done. rewrite Hpre, Hb1, scan_locales_cons.
      rewrite Hss, scan_sources_app, Hss1. cbn [scan_sources]. unfold bind, call. simpl.
      by rewrite Hs. }
    split.
    + unfold resolve. simpl sources. by rewrite Hscan.
    + by apply scan_locales_loader_calls in Hscan.
  - intros k st1 e w2 Hw Hload.
    rewrite resolve_winner, Hw, loader_calls_loader, (winner_loader_calls _ _ _ _ _ Hw).
    split; [|done]. unfold load, call. simpl sources. simpl Core.fallback.
    destruct Hload as [-> | (p & -> & Hp)]; [done|]. simpl. by rewrite Hp.
Qed.

End ResolveFailure.

(** ** The tag of a result *)

Lemma tag_props t v :
  tag t v = VObject ({[ Tag := v ]} ∪ (own_enumerable t ∪ ∅)).
Proof. done. Qed.

(** C6. Reading the tag of a tagged value gives the tag it was tagged
    with; no string key is the key of the tag, so every string-keyed field
    of the payload reads after tagging as it did before, and a payload with
    string keys only has no field under the key of the tag. *)
Theorem tag_roundtrip (t v : Value) :
  get (tag t v) Tag = v /\
  (forall s, PString s <> Tag) /\
  (forall s, get (tag t v) (PString s) = default VUndefined (own_enumerable t !! PString s)) /\
  (forall props,
     (forall k, k ∈ dom props -> exists s, k = PString s) ->
     props !! Tag = None /\
     forall s, get (tag (VObject props) v) (PString s) = get (VObject props) (PString s)).
Proof.
  assert (forall t' s, get (tag t' v) (PString s)
                       = default VUndefined (own_enumerable t' !! PString s)) as Hfield.
  { intros t' s. rewrite tag_props. simpl.
    rewrite lookup_union_r by (by apply lookup_singleton_ne).
    by rewrite (right_id_L ∅ (∪)). }
  split_and!.
  - rewrite tag_props. simpl.
    by rewrite (lookup_union_Some_l _ _ _ v) by apply lookup_singleton_eq.
  - done.
  - apply Hfield.
  - intros props Hkeys. split.
    + apply not_elem_of_dom. intros [s Hs]%Hkeys. done.
    + intros s. by rewrite Hfield.
Qed.

(** ** Predicate combinators *)

Section Combinators.
Context {World : Type}.
Implicit Types (p : Predicate (World := World)) (ps : list (Predicate (World := World))).

Lemma results_cons p ps tag w :
  results (p :: ps) tag w =
  match p tag w with
  | (Normal v, w1) =>
      match results ps tag w1 with
      | (Normal vs, w2) => (Normal (v :: vs), w2)
      | (Throw e, w2) => (Throw e, w2)
      end
  | (Throw e, w1) => (Throw e, w1)
  end.
Proof.
  cbn [results]. unfold bind, ret.
  destruct (p tag w) as [[v|e] w1]; [|done].
  by destruct (results ps tag w1) as [[vs|e] w2].
Qed.

Lemma results_length ps : forall tag w vs w',
  results ps tag w = (Normal vs, w') -> length vs = length ps.
Proof.
  induction ps as [|p ps IH]; intros tag w vs w'.
  - by intros [= <- <-].
  - rewrite results_cons.
    destruct (p tag w) as [[v|e] w1]; [|done].
    destruct (results ps tag w1) as [[vs'|e] w2] eqn:E; [|done].
    intros [= <- <-]. simpl. f_equal. by eapply IH.
Qed.

(** The [reduce] of [mean] adds up, from left to right, what the predicates
    return. *)
Lemma reduce_sum ps tag : forall acc w vs w',
  results ps tag w = (Normal vs, w') ->
  reduce (fun sum p => let* v := p tag in ret (add sum (Number v))) ps acc w =
  (Normal (fold_left add (map Number vs) acc), w').
Proof.
  induction ps as [|p ps IH]; intros acc w vs w'.
  - by intros [= <- <-].
  - rewrite results_cons. cbn [reduce]. unfold bind at 1 2, ret at 1.
    destruct (p tag w) as [[v|e] w1]; [|done].
    destruct (results ps tag w1) as [[vs'|e] w2] eqn:E; [|done].
    intros [= <- <-]. simpl. by apply IH.
Qed.

Lemma mean_results ps c (w : World) vs w' :
  results ps c w = (Normal vs, w') ->
  mean ps c w = (Normal (Num (arithmetic_mean (map Number vs))), w').
Proof.
  intros H. unfold mean, bind at 1. rewrite (reduce_sum _ _ _ _ _ _ H).
  unfold ret, arithmetic_mean. by rewrite length_map, (results_length _ _ _ _ _ H).
Qed.

(** Without predicates, [mean] divides 0 by 0. *)
Lemma mean_of_nothing c (w : World) : mean [] c w = (Normal (Num NaN), w).
Proof. done. Qed.

(** C7. What [mean] returns is the arithmetic mean of the numbers that its
    predicates return; the two examples of the documentation give 1 and
    0.5. *)
Theorem mean_is_arithmetic_mean ps c (w : World) vs w' :
  ps <> [] ->
  results ps c w = (Normal vs, w') ->
  mean ps c w = (Normal (Num (arithmetic_mean (map Number vs))), w') /\
  mean [startsWith "en"; is_ "en-US"] "en-US" w = (Normal (Num one), w) /\
  mean [startsWith "en"; is_ "en-US"] "en-GB" w = (Normal (Num half), w).
Proof.
  intros _ H. split_and!; [by apply mean_results|done|done].
Qed.

End Combinators.

(** ** Memoized loaders *)

Section Memoized.
Context {World T : Type}.
Implicit Types (loader : Loader World T) (c : Closure World T) (p : PromiseLike T).

(** Once [promise] holds a promise, a call returns it and changes
    nothing, and the wrapped loader is not looked at. *)
Lemma memoize_started depth loader c p :
  promise c = Some p -> memoize depth loader c = Some (Normal p, c).
Proof. intros Hc. destruct depth; simpl; by rewrite Hc. Qed.


(** A loader that does not call the memoized function needs no depth
    beyond the call itself. *)
Lemma memoize_plain depth (a : Async World T) c :
  promise c = None ->
  memoize (S depth) (plain a) c =
  Some (match a (world c) with
        | (Normal p, w') =>
            (Normal p, {| promise := Some p; world := w'; invoked := S (invoked c) |})
        | (Throw e, w') =>
            (Throw e, {| promise := None; world := w'; invoked := S (invoked c) |})
        end).
Proof.
  intros Hc. simpl. rewrite Hc. unfold plain.
  by destruct (a (world c)) as [[p|e] w'].
Qed.

Lemma calls_Call (steps : list (@Step World)) : calls (Call :: steps) = S (calls steps).
Proof. done. Qed.

Lemma run_started depth loader p steps : forall c,
  promise c = Some p ->
  exists rs c',
    run depth loader steps c = Some (rs, c') /\
    length rs = calls steps /\
    Forall (fun r => r = Normal p) rs /\
    promise c' = Some p /\
    invoked c' = invoked c /\
    world c' = elsewhere steps (world c).
Proof.
  induction steps as [|[|f] steps IH]; intros c Hc.
  - by exists [], c.
  - cbn [run]. rewrite (memoize_started _ _ _ _ Hc).
    destruct (IH c Hc) as (rs & c' & -> & Hn & Hall & Hp & Hi & Hw).
    exists (Normal p :: rs), c'.
    split_and!; [done | by rewrite calls_Call, <- Hn | by constructor | done..].
  - cbn [run].
    destruct (IH {| promise := promise c; world := f (world c); invoked := invoked c |} Hc)
      as (rs & c' & -> & Hn & Hall & Hp & Hi & Hw).
    by exists rs, c'.
Qed.


End Memoized.

(** ** Purity of the combinators *)

Section Purity.
Context {World : Type}.
Implicit Types (p : Predicate (World := World)) (ps : list (Predicate (World := World))).

Lemma pure_startsWith prefix : pure (World := World) (startsWith prefix).
Proof. by exists (fun tag => Bool (JsString.startsWith tag prefix)). Qed.

Lemma pure_endsWith suffix : pure (World := World) (endsWith suffix).
Proof. by exists (fun tag => Bool (JsString.endsWith tag suffix)). Qed.

Lemma pure_is expected : pure (World := World) (is_ expected).
Proof. by exists (fun tag => Bool (String.eqb expected tag)). Qed.

Lemma pure_isOneOf candidates : pure (World := World) (isOneOf candidates).
Proof. by exists (fun tag => Bool (JsString.includes candidates tag)). Qed.

(** An expression without [g] and [y] neither reads nor writes
    [lastIndex]. *)
Lemma pure_matches `{!JsRegExp.RegExpHeap World} pattern :
  JsRegExp.global pattern = false -> JsRegExp.sticky pattern = false ->
  pure (matches pattern).
Proof.
  intros Hg Hy.
  exists (fun tag =>
    Bool (match JsRegExp.search (JsRegExp.matcher pattern) false tag
                  (S (String.length tag) - 0) 0 with
          | Some _ => true
          | None => false
          end)).
  intros tag w. unfold matches, JsRegExp.test, JsRegExp.RegExpBuiltinExec, bind, ret.
  rewrite Hg, Hy. simpl orb. cbv iota.
  by destruct (JsRegExp.search _ _ _ _ _).
Qed.

Lemma pure_weighted factor p : pure p -> pure (weighted factor p).
Proof.
  intros [f Hf]. exists (fun tag => Num (mul (Number (f tag)) factor)).
  intros tag w. unfold weighted, bind, ret. by rewrite Hf.
Qed.

Lemma pure_results ps :
  Forall pure ps ->
  exists fs : list (string -> NumberOrBoolean),
    forall tag w, results ps tag w = (Normal (map (fun f => f tag) fs), w).
Proof.
  induction 1 as [|p ps [f Hf] _ [fs Hfs]].
  - by exists [].
  - exists (f :: fs). intros tag w. by rewrite results_cons, Hf, Hfs.
Qed.

Lemma pure_mean ps : Forall pure ps -> pure (mean ps).
Proof.
  intros [fs Hfs]%pure_results.
  exists (fun tag => Num (arithmetic_mean (map Number (map (fun f => f tag) fs)))).
  intros tag w.
  by rewrite (mean_results ps tag w _ _ (Hfs tag w)).
Qed.

End Purity.

(** ** The combinators on examples *)

(** C9, on [matches]. Called twice on the same locale, the predicate made
    from [/en/g] answers [true], then [false], and each call moves the
    [lastIndex] of the expression: it is not pure. *)
Theorem matches_global_not_pure :
  matches Example.en_g "en-US" (∅ : gmap nat nat)
    = (Normal (Bool true), {[ 0 := 2 ]}) /\
  matches Example.en_g "en-US" ({[ 0 := 2 ]} : gmap nat nat)
    = (Normal (Bool false), {[ 0 := 0 ]}) /\
  ~ pure (World := gmap nat nat) (matches Example.en_g).
Proof.
  assert (matches Example.en_g "en-US" (∅ : gmap nat nat)
          = (Normal (Bool true), {[ 0 := 2 ]})) as H1 by (by vm_compute).
  split_and!; [done | by vm_compute |].
  intros [f Hf]. rewrite Hf in H1.
  apply (f_equal (fun r => snd r !! 0)) in H1. simpl in H1.
  by rewrite lookup_empty, lookup_singleton_eq in H1.
Qed.

(** Every combinator but [matches] makes pure predicates, from pure
    predicates where it takes some; [matches] does for an expression
    without the [g] and [y] flags. *)
Theorem combinators_pure (World : Type) `{!JsRegExp.RegExpHeap World} :
  (forall prefix, pure (World := World) (startsWith prefix)) /\
  (forall suffix, pure (World := World) (endsWith suffix)) /\
  (forall expected, pure (World := World) (is_ expected)) /\
  (forall candidates, pure (World := World) (isOneOf candidates)) /\
  (forall pattern,
     JsRegExp.global pattern = false -> JsRegExp.sticky pattern = false ->
     pure (World := World) (matches pattern)) /\
  (forall factor p, pure (World := World) p -> pure (weighted factor p)) /\
  (forall ps, Forall (pure (World := World)) ps -> pure (mean ps)).
Proof.
  split_and!; eauto using pure_startsWith, pure_endsWith, pure_is, pure_isOneOf,
    pure_matches, pure_weighted, pure_mean.
Qed.

(** A pure predicate, called twice, returns the same and leaves the world
    unchanged. *)
Lemma pure_twice {World : Type} (p : Predicate (World := World)) tag w :
  pure p -> exists v, p tag w = (Normal v, w) /\ p tag (snd (p tag w)) = (Normal v, w).
Proof. intros [f Hf]. exists (f tag). by rewrite !Hf. Qed.

(** The examples given with each combinator in the documentation. *)
Lemma documented_examples (World : Type) `{!JsRegExp.RegExpHeap World} (w : World) :
  startsWith "en" "en-US" w = (Normal (Bool true), w) /\
  startsWith "en" "zh-CN" w = (Normal (Bool false), w) /\
  endsWith "US" "en-US" w = (Normal (Bool true), w) /\
  is_ "en-US" "en-US" w = (Normal (Bool true), w) /\
  is_ "en-US" "en" w = (Normal (Bool false), w) /\
  isOneOf ["en-US"; "en-GB"] "en-US" w = (Normal (Bool true), w) /\
  matches Example.en_anchored "en-US" w = (Normal (Bool true), w).
Proof. split_and!; reflexivity. Qed.

(** The same query, asked twice of a resolver with a source for
    [matches(/en/g)], selects that source, then the fallback. *)
Lemma resolve_with_global_pattern_alternates :
  winner (new Example.und [Example.en_by_pattern]) ["en-US"] (∅, [])
    = (Normal 1, ({[ 0 := 2 ]}, [CallPredicate 0 "en-US"; CallPredicate 1 "en-US"])) /\
  winner (new Example.und [Example.en_by_pattern]) ["en-US"] ({[ 0 := 2 ]}, [])
    = (Normal 0, ({[ 0 := 0 ]}, [CallPredicate 0 "en-US"; CallPredicate 1 "en-US"])).
Proof. split; by vm_compute. Qed.

(** The examples of [weighted] in the documentation. *)
Theorem weighted_examples (World : Type) (w : World) :
  weighted two (startsWith "en") "en-US" w = (Normal (Num two), w) /\
  weighted two (startsWith "en") "zh-CN" w = (Normal (Num zero), w).
Proof. done. Qed.

(** The scenario of the documentation: Chinese before English gives the
    Chinese content once its promise is fulfilled; French gives the
    fallback. *)
Theorem resolve_scenario :
  fst (resolve (new Example.en_US [Example.zh_CN]) ["zh-CN"; "en-US"] (tt, []))
    = Fulfilled (tag (Example.hello "你好！") (VString "zh-CN")) /\
  snd (snd (resolve (new Example.en_US [Example.zh_CN]) ["zh-CN"; "en-US"] (tt, [])))
    = [CallPredicate 0 "zh-CN"; CallPredicate 1 "zh-CN"; CallLoader 1] /\
  fst (resolve (new Example.en_US [Example.zh_CN]) ["fr-FR"] (tt, []))
    = Fulfilled (tag (Example.hello "Hello!") (VString "en-US")) /\
  get (tag (Example.hello "Hello!") (VString "en-US")) (PString "hello") = VString "Hello!" /\
  get (tag (Example.hello "Hello!") (VString "en-US")) Tag = VString "en-US".
Proof. split_and!; by vm_compute. Qed.

Lemma run_throwing depth n : forall i,
  run (S depth) (plain Example.throwing) (repeat Call n)
      {| promise := None; world := tt; invoked := i |} =
  Some (repeat (Throw (VString "boom")) n,
        {| promise := None; world := tt; invoked := i + n |}).
Proof.
  induction n as [|n IH]; intros i.
  - cbn [repeat run]. by rewrite Nat.add_0_r.
  - cbn [repeat run].
    rewrite (memoize_plain depth Example.throwing
               {| promise := None; world := tt; invoked := i |} eq_refl).
    cbn [Example.throwing throw world invoked].
    rewrite (IH (S i)). by rewrite Nat.add_succ_comm.
Qed.

(** C5 fails in the code, in two ways. A loader that throws is called
    again by every call of the memoized loader: [n] calls are [n] calls
    of the wrapped loader. And a loader that calls the memoized function
    while it runs is started a second time by that call: the call from
    within gets the second promise, the first call and every later one get
    the first, so the callers did not get the same promise and the wrapped
    loader ran twice. *)
Theorem memoize_invokes_again :
  (forall n,
     run 1 (plain Example.throwing) (repeat Call n) (fresh tt) =
     Some (repeat (Throw (VString "boom")) n,
           {| promise := None; world := tt; invoked := n |})) /\
  run 2 (Example.reentrant Example.first_promise Example.second_promise) [Call; Call] (fresh (0, [])) =
  Some ([Normal Example.first_promise; Normal Example.first_promise],
        {| promise := Some Example.first_promise;
           world := (1, [Example.second_promise]);
           invoked := 2 |}) /\
  Example.first_promise <> Example.second_promise.
Proof.
  split_and!.
  - intros n. apply (run_throwing 0 n 0).
  - reflexivity.
  - discriminate.
Qed.

(** ** The theorems at work *)

(** Two English sources score 1 for ["en-US"]: the first is selected. *)
Lemma resolve_tie_earlier_wins_witness :
  exists k st1,
    winner (new Example.en_US [Example.en_GB]) ["en-US"] (tt, []) = (Normal k, st1) /\
    k <> 1.
Proof.
  destruct (resolve_tie_earlier_wins Example.en_US [Example.en_GB] "en-US" tt []
              [one; one] tt 0 1 one one)
    as (k & st1 & Hw & _ & Hk & _);
    [reflexivity | lia | reflexivity | reflexivity | reflexivity |].
  exists k, st1. split; [exact Hw | exact Hk].
Defined.

(** French matches nothing, Taiwanese Chinese matches the Chinese source by
    half; English, which comes later, would match the fallback fully and is
    not looked at. *)
Lemma resolve_first_positive_locale_wins_witness :
  resolve (new Example.en_US [Example.zh_CN]) (["fr-FR"] ++ "zh-TW" :: ["en-US"]) (tt, [])
    = resolve (new Example.en_US [Example.zh_CN]) (["fr-FR"] ++ ["zh-TW"]) (tt, []) /\
  winner (new Example.en_US [Example.zh_CN]) (["fr-FR"] ++ "zh-TW" :: ["en-US"]) (tt, [])
    = (Normal 1,
       (tt, [CallPredicate 0 "fr-FR"; CallPredicate 1 "fr-FR";
             CallPredicate 0 "zh-TW"; CallPredicate 1 "zh-TW"])).
Proof.
  apply (resolve_first_positive_locale_wins Example.en_US [Example.zh_CN]
           ["fr-FR"] "zh-TW" ["en-US"] (tt, [])
           (tt, [CallPredicate 0 "fr-FR"; CallPredicate 1 "fr-FR"])
           (zero, 0) [zero; half] tt 1 half);
    reflexivity.
Defined.

Lemma resolve_no_match_fallback_witness :
  resolve (new Example.en_US [Example.zh_CN]) ["fr-FR"] (tt, []) =
    (Fulfilled (VObject (<[ Tag := VString "en-US" ]> {[ PString "hello" := VString "Hello!" ]})),
     (tt, [CallPredicate 0 "fr-FR"; CallPredicate 1 "fr-FR"; CallLoader 0])) /\
  get (VObject (<[ Tag := VString "en-US" ]> {[ PString "hello" := VString "Hello!" ]})) Tag
    = VString "en-US" /\
  resolve (new Example.zh_CN [Example.en_US]) [] (tt, []) =
    (Fulfilled (VObject (<[ Tag := VString "zh-CN" ]> {[ PString "hello" := VString "你好！" ]})),
     (tt, [CallLoader 0])).
Proof.
  destruct (resolve_no_match_fallback Example.en_US [Example.zh_CN] ["fr-FR"] (tt, []))
    as (st1 & Hw & _ & _ & Hcontent).
  { right. intros locale s w Hl Hs.
    apply list_elem_of_singleton in Hl as ->.
    apply elem_of_cons in Hs as [-> | Hs];
      [|apply list_elem_of_singleton in Hs as ->];
      destruct w; eexists _, _; split; reflexivity. }
  injection Hw as <-.
  destruct (Hcontent (Immediately (Example.hello "Hello!")) (Example.hello "Hello!") tt
              eq_refl (or_introl eq_refl)) as (content & Hr & _ & Hg & Hk).
  destruct (Hk eq_refl) as [-> _].
  destruct (resolve_no_match_fallback Example.zh_CN [Example.en_US] [] (tt, [])
              (or_introl eq_refl)) as (st2 & _ & _ & Hst & Hpromise).
  rewrite (Hst eq_refl) in Hpromise.
  destruct (Hpromise
              (Eventually {| promise_id := 0; eventually := Fulfilled (Example.hello "你好！") |})
              (Example.hello "你好！") tt eq_refl
              (or_intror (ex_intro _ _ (conj eq_refl eq_refl))))
    as (content & Hr' & _ & _ & Hk').
  destruct (Hk' eq_refl) as [-> _].
  split_and!; [exact Hr | exact Hg | exact Hr'].
Defined.

(** The Chinese source is selected whether its predicate returns 1 or
    -1. *)
Lemma resolve_ignores_sign_witness :
  resolve (new Example.en_US [Example.zh_CN_negated]) ["zh-CN"] (tt, [])
    = resolve (new Example.en_US [Example.zh_CN]) ["zh-CN"] (tt, []) /\
  winner (new Example.en_US [Example.zh_CN_negated]) ["zh-CN"] (tt, [])
    = (Normal 1, (tt, [CallPredicate 0 "zh-CN"; CallPredicate 1 "zh-CN"])).
Proof.
  split; [|reflexivity].
  destruct (resolve_ignores_sign Example.en_US [Example.zh_CN]
              Example.en_US [Example.zh_CN_negated]) as [H _].
  - split; [reflexivity | split; [reflexivity | left; reflexivity]].
  - constructor; [|constructor].
    split; [reflexivity | split; [reflexivity | right; reflexivity]].
  - apply H.
Defined.

Lemma mean_is_arithmetic_mean_witness :
  mean [startsWith "en"; is_ "en-US"] "en-GB" tt
    = (Normal (Num (arithmetic_mean [one; zero])), tt) /\
  arithmetic_mean [one; zero] = half.
Proof.
  split; [|reflexivity].
  destruct (mean_is_arithmetic_mean [startsWith "en"; is_ "en-US"] "en-GB" tt
              [Bool true; Bool false] tt) as [H _];
    [discriminate | reflexivity | exact H].
Defined.

(** The Taiwanese source is selected and its promise rejects: so does
    [resolve], and the fallback is not loaded. *)
Lemma resolve_failure_propagates_witness :
  resolve (new Example.en_US [Example.zh_TW]) ["zh-TW"] (tt, [])
    = (Rejected (VString "offline"),
       (tt, [CallPredicate 0 "zh-TW"; CallPredicate 1 "zh-TW"; CallLoader 1])) /\
  loader_calls [CallPredicate 0 "zh-TW"; CallPredicate 1 "zh-TW"; CallLoader 1] = [1].
Proof.
  apply (proj2 (resolve_failure_propagates Example.en_US [Example.zh_TW] ["zh-TW"] (tt, []))
           1 (tt, [CallPredicate 0 "zh-TW"; CallPredicate 1 "zh-TW"])
           (VString "offline") tt);
    [reflexivity|].
  right. eexists. split; reflexivity.
Defined.


(** * More properties *)

(** ** What [resolve] asks and what it returns *)

Section ResolveShape.
Context {World : Type}.
Implicit Types (fallback : Source World) (others ss : list (Source World)).

(** After one locale, the best is what it was or a positive score of one
    of the sources. *)
Lemma select_best_from_zero (sc : list number) :
  select_best sc 0 (zero, 0) = (zero, 0) \/
  (gt (fst (select_best sc 0 (zero, 0))) zero = true /\
   sc !! snd (select_best sc 0 (zero, 0)) = Some (fst (select_best sc 0 (zero, 0))) /\
   (forall n x, sc !! n = Some x -> gt x (fst (select_best sc 0 (zero, 0))) = false) /\
   (forall n x, n < snd (select_best sc 0 (zero, 0)) -> sc !! n = Some x ->
      ge x (fst (select_best sc 0 (zero, 0))) = false)).
Proof.
  destruct (select_best_spec sc 0 zero 0 eq_refl) as (_ & _ & Hall & Hsel).
  destruct Hsel as [Hsel | (n & HK & Hn & Hgt & Hbefore)]; [by left | right].
  simpl in HK. rewrite HK. done.
Qed.

(** The loop over the locales, from the start: either no locale gave a
    positive score, or the loop stopped at the first that did, with the
    best of its scores. *)
Lemma scan_locales_decided ss locales : forall st best' st',
  scan_locales ss locales (zero, 0) st = (Normal best', st') ->
  (best' = (zero, 0) /\
   snd st' = snd st ++ concat (List.map (predicate_calls 0 (length ss)) locales)) \/
  exists pre locale post st1 sc,
    locales = pre ++ locale :: post /\
    scan_locales ss pre (zero, 0) st = (Normal (zero, 0), st1) /\
    snd st1 = snd st ++ concat (List.map (predicate_calls 0 (length ss)) pre) /\
    scores ss locale (fst st1) = (Normal sc, fst st') /\
    snd st' = snd st1 ++ predicate_calls 0 (length ss) locale /\
    best' = select_best sc 0 (zero, 0) /\
    gt (fst best') zero = true.
Proof.
  induction locales as [|l locales IH]; intros [w tr] best' st'.
  - intros [= <- <-]. left. simpl. by rewrite app_nil_r.
  - rewrite scan_locales_cons.
    destruct (scan_sources ss 0 l (zero, 0) (w, tr)) as [[b|e] [w1 tr1]] eqn:E; [|done].
    destruct (scan_sources_inv _ _ _ _ _ _ _ _ E) as (sc & Hsc & -> & Htr). simpl in *.
    destruct (gt (fst (select_best sc 0 (zero, 0))) zero) eqn:Hpos.
    + intros [= <- <-]. right. exists [], l, locales, (w, tr), sc. simpl.
      split_and!; try done. by rewrite app_nil_r.
    + destruct (select_best_from_zero sc) as [Hz | [Hgt _]]; [|congruence].
      rewrite Hz. intros H. apply IH in H.
      destruct H as [[-> Htr'] | (pre & locale & post & st1 & sc' & -> & Hpre & Htr1 & Hsc' & Htr' & -> & Hpos')].
      * left. split; [done|]. simpl in *. by rewrite Htr', Htr, <- app_assoc.
      * right. exists (l :: pre), locale, post, st1, sc'.
        split_and!; try done.
        -- rewrite scan_locales_cons, E. cbn [fst]. by rewrite Hpos, Hz.
        -- cbn [snd] in *. simpl. by rewrite Htr1, Htr, <- app_assoc.
Qed.


Lemma winner_scan (I : Internationalization World) locales st k st' :
  winner I locales st = (Normal k, st') ->
  exists best, scan_locales (sources I) locales (zero, 0) st = (Normal best, st') /\
               snd best = k.
Proof.
  unfold winner, bind, ret.
  destruct (scan_locales (sources I) locales (zero, 0) st) as [[best|e] st1]; [|done].
  intros [= <- <-]. by exists best.
Qed.

Lemma scan_winner (I : Internationalization World) locales st best st' :
  scan_locales (sources I) locales (zero, 0) st = (Normal best, st') ->
  winner I locales st = (Normal (snd best), st').
Proof. intros H. unfold winner, bind, ret. by rewrite H. Qed.

(** Every locale that is looked at is put to every source, in registration
    order, also after one of them has scored above 0; the locales are
    looked at in order, up to the one that decides. *)
Theorem resolve_asks_every_source fallback others locales (st : State) k st' :
  winner (new fallback others) locales st = (Normal k, st') ->
  exists asked rest,
    locales = asked ++ rest /\
    snd st' = snd st ++
      concat (List.map (predicate_calls 0 (S (length others))) asked) /\
    (rest <> [] -> asked <> []).
Proof.
  intros (best & Hscan & _)%winner_scan.
  change (sources (new fallback others)) with (fallback :: others) in Hscan.
  apply scan_locales_decided in Hscan.
  destruct Hscan as [[_ Htr] | (pre & locale & post & st1 & sc & -> & _ & Htr1 & _ & Htr & _)].
  - exists locales, []. by rewrite app_nil_r.
  - exists (pre ++ [locale]), post. split_and!.
    + by rewrite <- app_assoc.
    + rewrite Htr, Htr1, map_app, concat_app. simpl. by rewrite app_nil_r, <- app_assoc.
    + intros _. by destruct pre.
Qed.

(** The source that is selected: the fallback, or else the source that, at
    the first locale for which a score is above 0, has the highest score
    and is the first to have it. *)
Theorem resolve_selects_first_best fallback others locales (st : State) k st' :
  winner (new fallback others) locales st = (Normal k, st') ->
  k = 0 \/
  exists pre locale post st1 sc M,
    locales = pre ++ locale :: post /\
    winner (new fallback others) pre st = (Normal 0, st1) /\
    scores (fallback :: others) locale (fst st1) = (Normal sc, fst st') /\
    Forall (fun x => gt x M = false) sc /\
    sc !! k = Some M /\
    gt M zero = true /\
    forall n x, n < k -> sc !! n = Some x -> ge x M = false.
Proof.
  intros (best & Hscan & <-)%winner_scan.
  change (sources (new fallback others)) with (fallback :: others) in Hscan.
  apply scan_locales_decided in Hscan.
  destruct Hscan as [[-> _] | (pre & locale & post & st1 & sc & -> & Hpre & _ & Hsc & _ & -> & Hpos)];
    [by left | right].
  destruct (select_best_from_zero sc) as [Hz | (_ & HM & Hall & Hbefore)];
    [by rewrite Hz in Hpos|].
  exists pre, locale, post, st1, sc, (fst (select_best sc 0 (zero, 0))).
  split_and!; try done.
  - by apply (scan_winner (new fallback others)) in Hpre.
  - apply Forall_lookup. intros n x. apply Hall.
Qed.



End ResolveShape.

(** ** Tagging *)

(** The index of a character is no [__proto__]. *)
Lemma pretty_N_go_ne_underscore x s s' :
  s <> "_" +:+ s' -> pretty_N_go x s <> "_" +:+ s'.
Proof.
  revert s. induction (N.lt_wf_0 x) as [x _ IH]; intros s Hs.
  assert (x = 0 \/ 0 < x)%N as [->|Hx] by lia.
  - by rewrite pretty_N_go_0.
  - rewrite pretty_N_go_step by done. apply IH.
    { by apply N.div_lt. }
    unfold pretty_N_char. by repeat case_match.
Qed.

Lemma pretty_nat_ne_proto (i : nat) : pretty i <> "__proto__".
Proof.
  unfold pretty, pretty_nat, pretty, pretty_N.
  destruct (decide (N.of_nat i = 0%N)); [done|].
  by apply (pretty_N_go_ne_underscore _ "" "_proto__").
Qed.

(** For a payload that [Object.assign] copies key by key (an object
    without an own [__proto__], an ASCII string, a value without own
    enumerable properties), the result of [tag] is an object with the own
    enumerable properties of the payload and the tag: [null], [undefined],
    numbers and booleans give an object with the tag alone, and tagging
    again replaces the tag and keeps the rest. *)
Theorem tag_again (t v1 v2 : Value) :
  copied_by_key t ->
  tag (tag t v1) v2 = tag t v2 /\
  (exists props,
     tag t v1 = VObject props /\ dom props = dom (own_enumerable t) ∪ {[ Tag ]} /\
     copied_by_key (VObject props)) /\
  (own_enumerable t = ∅ -> tag t v1 = VObject {[ Tag := v1 ]}) /\
  (t = VNull \/ t = VUndefined \/ (exists b, t = VBoolean b) \/ (exists x, t = VNumber x) ->
   tag t v1 = VObject {[ Tag := v1 ]}).
Proof.
  intros Ht. split_and!.
  - rewrite !tag_props. simpl. f_equal. rewrite !(right_id_L ∅ (∪)).
    apply map_eq. intros k. destruct (decide (k = Tag)) as [->|Hk].
    + by rewrite !(lookup_union_Some_l _ _ _ v2) by apply lookup_singleton_eq.
    + by rewrite !lookup_union_r by (by apply lookup_singleton_ne).
  - eexists. split; [apply tag_props|]. split.
    + rewrite (right_id_L ∅ (∪)), dom_union_L, dom_singleton_L. apply (comm_L (∪)).
    + simpl. rewrite (right_id_L ∅ (∪)).
      rewrite lookup_union_r by (by apply lookup_singleton_ne).
      destruct t as [| | | |s|props]; simpl in *; [done..| |done].
      apply not_elem_of_list_to_map_1. intros Hin.
      apply list_elem_of_fmap in Hin as ([k v] & Hk & Hin).
      apply elem_of_lookup_imap in Hin as (i & c & [= -> ->] & _). simpl in Hk.
      injection Hk as Hk. by apply (pretty_nat_ne_proto i).
  - intros Hempty. rewrite tag_props, Hempty. by rewrite !(right_id_L ∅ (∪)).
  - by intros [-> | [-> | [[b ->] | [x ->]]]].
Qed.

(** ** What the predicates answer *)

Lemma append_cons (a : Ascii.ascii) (s r : string) :
  (String a s +:+ r) = String a (s +:+ r).
Proof. done. Qed.

Lemma prefix_append (p tag : string) :
  String.prefix p tag = true <-> exists r, tag = (p ++ r)%string.
Proof.
  revert tag. induction p as [|a p IH]; intros tag; simpl.
  - split; [by exists tag | by destruct tag].
  - destruct tag as [|b tag]; simpl.
    + split; [done | by intros [r Hr]].
    + destruct (Ascii.ascii_dec a b) as [->|Hab].
      * rewrite IH. split; intros [r Hr]; exists r.
        -- by rewrite Hr.
        -- change (String b p +:+ r) with (String b (p +:+ r)) in Hr. by injection Hr.
      * split; [done | intros [r Hr]].
        change (String a p +:+ r) with (String a (p +:+ r)) in Hr. congruence.
Qed.

Lemma substring_append_r (r s : string) :
  String.substring (String.length r) (String.length s) (r ++ s) = s.
Proof.
  induction r as [|a r IH]; [|by rewrite append_cons].
  change (EmptyString +:+ s) with s. simpl.
  induction s as [|b s IHs]; simpl; [done | by rewrite IHs].
Qed.

Lemma substring_split (n : nat) : forall (tag : string),
  n <= String.length tag ->
  tag = (String.substring 0 n tag
         ++ String.substring n (String.length tag - n) tag)%string.
Proof.
  induction n as [|n IH]; intros tag Hn.
  - rewrite Nat.sub_0_r. simpl.
    assert (forall s, String.substring 0 (String.length s) s = s) as Hall.
    { induction s as [|b s IHs]; simpl; [done | by rewrite IHs]. }
    change (EmptyString +:+ tag) with tag.
    destruct tag; simpl; [done|]. by rewrite Hall.
  - destruct tag as [|b tag]; simpl in *; [lia|].
    rewrite append_cons. f_equal. apply IH. lia.
Qed.

Lemma length_append (r s : string) :
  String.length (r ++ s) = String.length r + String.length s.
Proof. induction r; [done|]. rewrite append_cons. simpl. by f_equal. Qed.

Lemma endsWith_append (tag s : string) :
  JsString.endsWith tag s = true <-> exists r, tag = (r ++ s)%string.
Proof.
  unfold JsString.endsWith. split.
  - destruct (String.length s <=? String.length tag) eqn:Hle; [|done].
    apply Nat.leb_le in Hle. intros Heq%String.eqb_eq.
    exists (String.substring 0 (String.length tag - String.length s) tag).
    pose proof (substring_split (String.length tag - String.length s) tag ltac:(lia)) as H.
    replace (String.length tag - (String.length tag - String.length s))
      with (String.length s) in H by lia.
    by rewrite Heq in H.
  - intros [r ->]. rewrite length_append.
    replace (String.length s <=? String.length r + String.length s) with true
      by (symmetry; apply Nat.leb_le; lia).
    replace (String.length r + String.length s - String.length s)
      with (String.length r) by lia.
    rewrite substring_append_r. apply String.eqb_refl.
Qed.

Lemma includes_elem_of (candidates : list string) (tag : string) :
  JsString.includes candidates tag = true <-> tag ∈ candidates.
Proof.
  unfold JsString.includes. rewrite existsb_exists. split.
  - intros (c & Hc%list_elem_of_In & ->%String.eqb_eq). done.
  - intros H. exists tag. split; [by apply list_elem_of_In | apply String.eqb_refl].
Qed.

(** The four string predicates answer [true] or [false], never throw and
    leave the world alone; they answer [true] exactly when the locale
    begins with the prefix, ends with the suffix, is the expected string,
    is one of the candidates. *)
Theorem string_predicates_contract (World : Type) (tag : string) (w : World) :
  (forall prefix, exists b,
     startsWith prefix tag w = (Normal (Bool b), w) /\
     (b = true <-> exists r, tag = (prefix ++ r)%string)) /\
  (forall suffix, exists b,
     endsWith suffix tag w = (Normal (Bool b), w) /\
     (b = true <-> exists r, tag = (r ++ suffix)%string)) /\
  (forall expected, exists b,
     is_ expected tag w = (Normal (Bool b), w) /\
     (b = true <-> expected = tag)) /\
  (forall candidates, exists b,
     isOneOf candidates tag w = (Normal (Bool b), w) /\
     (b = true <-> tag ∈ candidates)).
Proof.
  split_and!; intros x; eexists; (split; [reflexivity|]).
  - apply prefix_append.
  - apply endsWith_append.
  - apply String.eqb_eq.
  - apply includes_elem_of.
Qed.

(** [isOneOf] looks at which strings are candidates, not at their order
    or at how often they are given. *)
Theorem isOneOf_order_irrelevant (World : Type) (candidates candidates' : list string) :
  (forall c, c ∈ candidates <-> c ∈ candidates') ->
  forall tag (w : World), isOneOf candidates tag w = isOneOf candidates' tag w.
Proof.
  intros H tag w. unfold isOneOf, ret. do 3 f_equal.
  apply eq_true_iff_eq. by rewrite !includes_elem_of.
Qed.

Lemma isOneOf_order_irrelevant_witness :
  isOneOf ["en-GB"; "en-US"; "en-GB"] "en-US" tt = isOneOf ["en-US"; "en-GB"] "en-US" tt.
Proof.
  apply (isOneOf_order_irrelevant unit ["en-GB"; "en-US"; "en-GB"] ["en-US"; "en-GB"]).
  intros c. rewrite !elem_of_cons, !elem_of_nil. tauto.
Defined.

(** ** Weights and means *)

(** Rounding works on the magnitude: the sign is passed through. *)
Lemma binary_round_aux_opp (s : bool) (m e : Z) (l : location) :
  binary_round_aux prec emax (negb s) m e l = SFopp (binary_round_aux prec emax s m e l).
Proof.
  unfold binary_round_aux.
  destruct (shr_fexp prec emax m e l) as [mrs' e'].
  destruct (shr_fexp prec emax _ e' loc_Exact) as [mrs'' e''].
  destruct (shr_m mrs'') as [|q|q]; [done| |done].
  by destruct (e'' <=? emax - prec)%Z.
Qed.

Lemma xorb_negb (a b : bool) : xorb a (negb b) = negb (xorb a b).
Proof. by destruct a, b. Qed.

Lemma mul_neg (x f : number) : mul x (neg f) = neg (mul x f).
Proof.
  destruct x as [sx|sx| |sx mx ex], f as [sf|sf| |sf mf ef]; simpl;
    try done; try (by rewrite xorb_negb).
  rewrite xorb_negb. apply binary_round_aux_opp.
Qed.

(** Zero times anything, and zero over anything, is zero or NaN. *)
Lemma mul_zero_not_positive (s : bool) (f : number) :
  gt (abs (mul (S754_zero s) f)) zero = false.
Proof. by destruct f as [sf|sf| |sf mf ef]. Qed.

Lemma div_zero_not_positive (s : bool) (y : number) :
  gt (abs (div (S754_zero s) y)) zero = false.
Proof. by destruct y as [sy|sy| |sy my ey]. Qed.

Section Alike.
Context {World : Type}.
Implicit Types (fallback : Source World) (others ss : list (Source World)).

Lemma scan_sources_alike ss ss' :
  Forall2 alike ss ss' ->
  forall i locale best st,
    scan_sources ss' i locale best st = scan_sources ss i locale best st.
Proof.
  induction 1 as [|s s' ss ss' (_ & _ & Hp) _ IH]; intros i locale best [w tr]; [done|].
  cbn [scan_sources]. unfold bind, call. simpl.
  specialize (Hp locale w).
  destruct (predicate s locale w) as [[u|e] w1], (predicate s' locale w) as [[v|e'] w2];
    try done; destruct Hp as [-> ->]; [|done].
  apply IH.
Qed.

Lemma scan_locales_alike ss ss' :
  Forall2 alike ss ss' ->
  forall locales best st,
    scan_locales ss' locales best st = scan_locales ss locales best st.
Proof.
  intros H. induction locales as [|l locales IH]; intros best st; [done|].
  rewrite !scan_locales_cons, (scan_sources_alike _ _ H).
  destruct (scan_sources ss 0 l best st) as [[b|e] st']; [|done].
  by rewrite IH.
Qed.

Lemma alike_nth ss ss' (d d' : Source World) k :
  Forall2 alike ss ss' -> alike d d' -> alike (nth k ss d) (nth k ss' d').
Proof.
  intros H Hd. revert k. induction H as [|s s' ss ss' Hs _ IH]; intros [|k]; simpl; auto.
Qed.

Lemma resolve_alike fallback others fallback' others' locales st :
  alike fallback fallback' -> Forall2 alike others others' ->
  resolve (new fallback' others') locales st = resolve (new fallback others) locales st.
Proof.
  intros Hf Ho.
  assert (Forall2 alike (fallback :: others) (fallback' :: others')) as Hss by by constructor.
  unfold resolve. simpl sources. rewrite (scan_locales_alike _ _ Hss).
  destruct (scan_locales (fallback :: others) locales (zero, 0) st) as [[best|e] st']; [|done].
  unfold load. simpl sources. simpl Core.fallback.
  by destruct (alike_nth _ _ fallback fallback' (snd best) Hss Hf) as (-> & -> & _).
Qed.

Lemma same_magnitude_refl (p : Predicate (World := World)) : same_magnitude p p.
Proof. intros tag w. by destruct (p tag w) as [[v|e] w']. Qed.

Lemma weighted_neg_same_magnitude factor (p : Predicate (World := World)) :
  same_magnitude (weighted factor p) (weighted (neg factor) p).
Proof.
  intros tag w. unfold weighted, bind, ret.
  destruct (p tag w) as [[v|e] w']; [|done].
  simpl. by rewrite mul_neg, abs_neg.
Qed.

Lemma reweighted_alike (s s' : Source World) : reweighted s s' -> alike s s'.
Proof.
  intros (Ht & Hl & [Hp | (factor & p & Hp & Hp')]); (split; [done|split; [done|]]).
  - rewrite Hp. apply same_magnitude_refl.
  - rewrite Hp, Hp'. apply weighted_neg_same_magnitude.
Qed.

(** For sources whose predicate is itself [weighted factor p], the
    sign of the factor makes no difference to [resolve]: with the opposite
    factor in any of these sources, it asks, selects, loads and returns
    the same. (A weight within [mean] counts with its sign, see
    [weight_within_mean_counts_with_sign].) *)
Theorem resolve_ignores_sign_of_weight fallback others fallback' others' :
  reweighted fallback fallback' ->
  Forall2 reweighted others others' ->
  forall locales st,
    resolve (new fallback' others') locales st = resolve (new fallback others) locales st.
Proof.
  intros Hf Ho locales st. apply resolve_alike; [by apply reweighted_alike|].
  eapply Forall2_impl; [exact Ho | apply reweighted_alike].
Qed.

Lemma results_all_false (ps : list (Predicate (World := World))) tag :
  forall w vs w',
  results ps tag w = (Normal vs, w') ->
  Forall (fun v => Number v = zero) vs ->
  fold_left add (List.map Number vs) zero = zero.
Proof.
  intros w vs w' _ Hall. clear w w'.
  induction Hall as [|v vs Hv _ IH]; [done|]. simpl. by rewrite Hv.
Qed.

(** A locale that the wrapped predicates do not match is not matched by
    [weighted], whatever the factor, nor by [mean], whatever the number of
    predicates: the score is not above 0. *)
Theorem no_match_stays_no_match (tag : string) (w w' : World) :
  (forall factor p,
     p tag w = (Normal (Bool false), w') ->
     exists x, weighted factor p tag w = (Normal (Num x), w') /\
               gt (abs (Number (Num x))) zero = false) /\
  (forall ps vs,
     results ps tag w = (Normal vs, w') ->
     Forall (fun v => v = Bool false) vs ->
     exists x, mean ps tag w = (Normal (Num x), w') /\
               gt (abs (Number (Num x))) zero = false).
Proof.
  split.
  - intros factor p Hp. eexists. unfold weighted, bind, ret. rewrite Hp. split; [done|].
    apply mul_zero_not_positive.
  - intros ps vs Hvs Hall. eexists. rewrite (mean_results _ _ _ _ _ Hvs). split; [done|].
    unfold arithmetic_mean.
    rewrite (results_all_false ps tag w vs w' Hvs).
    + apply div_zero_not_positive.
    + eapply Forall_impl; [exact Hall|]. by intros v ->.
Qed.

End Alike.

(** ** Memoized loaders that fail *)

Section MemoizedRuns.
Context {World T : Type}.
Implicit Types (loader : Loader World T) (c : Closure World T) (p : PromiseLike T).

(** The calls of a loader that does not call the memoized function:
    the calls that fail come first; from the first call that succeeds on,
    every call returns the same promise. *)
Lemma run_plain_not_started depth (a : Async World T) steps : forall c,
  promise c = None ->
  exists es ps c',
    run (S depth) (plain a) steps c = Some (List.map Throw es ++ ps, c') /\
    length es + length ps = calls steps /\
    ((ps = [] /\ promise c' = None /\ invoked c' = invoked c + length es) \/
     (exists p,
        ps <> [] /\
        Forall (fun r => r = Normal p) ps /\
        promise c' = Some p /\
        invoked c' = invoked c + length es + 1)).
Proof.
  induction steps as [|[|f] steps IH]; intros c Hc.
  - exists [], [], c. split_and!; [done | done |]. left. split_and!; [done | done | simpl; lia].
  - cbn [run]. rewrite (memoize_plain _ _ _ Hc).
    destruct (a (world c)) as [[p|e] w'].
    + destruct (run_started (S depth) (plain a) p steps
                  {| promise := Some p; world := w'; invoked := S (invoked c) |} eq_refl)
        as (rs & c' & -> & Hn & Hall & Hp & Hi & Hw).
      exists [], (Normal p :: rs), c'.
      split_and!; [done | by rewrite calls_Call, <- Hn |].
      right. exists p. split_and!; [done | by constructor | done | simpl in *; lia].
    + destruct (IH {| promise := None; world := w'; invoked := S (invoked c) |} eq_refl)
        as (es & ps & c' & -> & Hn & Hcase).
      exists (e :: es), ps, c'.
      split_and!; [done | by rewrite calls_Call, <- Hn |].
      destruct Hcase as [(-> & Hp & Hi) | (p & Hne & Hall & Hp & Hi)].
      * left. split_and!; [done | done | simpl in *; lia].
      * right. exists p. split_and!; [done | done | done | simpl in *; lia].
  - cbn [run].
    destruct (IH {| promise := promise c; world := f (world c); invoked := invoked c |} Hc)
      as (es & ps & c' & -> & Hn & Hcase).
    by exists es, ps, c'.
Qed.

(** A loader that does not call the memoized function, called any
    number of times with other code running in between: every call comes
    to an end; the calls that fail come first, each of them a call of the
    wrapped loader that threw; from the first call that succeeds on, every
    call returns the same promise, and the wrapped loader was called once
    more for it. *)
Theorem memoize_run_shape depth (a : Async World T) steps (w : World) :
  exists es ps c',
    run (S depth) (plain a) steps (fresh w) = Some (List.map Throw es ++ ps, c') /\
    length es + length ps = calls steps /\
    ((ps = [] /\ promise c' = None /\ invoked c' = length es) \/
     (exists p,
        ps <> [] /\
        Forall (fun r => r = Normal p) ps /\
        promise c' = Some p /\
        invoked c' = length es + 1)).
Proof. apply (run_plain_not_started depth a steps (fresh w) eq_refl). Qed.

End MemoizedRuns.

(** ** [map] and [pick] *)

Lemma lookup_chain_found tables key i slot :
  Adapters.found_at tables key i slot -> Adapters.lookup_chain tables key = Some slot.
Proof.
  revert i. induction tables as [|o tables IH]; intros i (own & Hi & Hk & Hbefore).
  - done.
  - destruct i as [|i]; simpl in *.
    + injection Hi as ->. by rewrite Hk.
    + rewrite (Hbefore 0 o ltac:(lia) eq_refl).
      apply (IH i). exists own. split_and!; [done | done |].
      intros j o' Hj Ho'. apply (Hbefore (S j) o'); [lia | done].
Qed.

Lemma lookup_chain_absent tables key :
  Forall (fun o => o !! key = None) tables -> Adapters.lookup_chain tables key = None.
Proof. induction 1 as [|o tables Ho _ IH]; [done|]. simpl. by rewrite Ho. Qed.

Section MapPick.
Context {World : Type} `{!Adapters.PromiseHeap World}.
Implicit Types (loader : Async World Adapters.Subject).

Lemma map_outcome {T U : Type} (l : Async World T)
    (fn : T -> completion (Adapters.Returned U)) w :
  Adapters.outcome (Adapters.map l fn w) =
  match l w with
  | (Normal p, _) => Normal (Adapters.settle fn (eventually p))
  | (Throw e, _) => Throw e
  end.
Proof.
  unfold Adapters.outcome, Adapters.map, Adapters.then_, bind.
  destruct (l w) as [[p|e] w1]; [|done].
  by destruct (Adapters.newPromise w1).
Qed.

Lemma map_map_outcome {T U V : Type} (l : Async World T)
    (fn : T -> completion (Adapters.Returned U))
    (gn : U -> completion (Adapters.Returned V)) w :
  Adapters.outcome (Adapters.map (Adapters.map l fn) gn w) =
  match l w with
  | (Normal p, _) => Normal (Adapters.settle gn (Adapters.settle fn (eventually p)))
  | (Throw e, _) => Throw e
  end.
Proof.
  rewrite map_outcome. unfold Adapters.map at 1, Adapters.then_, bind.
  destruct (l w) as [[p|e] w1]; [|done].
  by destruct (Adapters.newPromise w1) as [id w2].
Qed.

(** Two [map] in a row, the first with a function that returns no
    thenable, come to one [map] with the two functions in a row, and a
    [map] with a function that returns its argument comes to the loader
    itself: the promises differ, what they settle to does not. When the
    first function returns a thenable, the second is applied to what the
    thenable is fulfilled with, not to the thenable. A rejection, or a
    loader that throws, passes through without the functions being
    applied. *)
Theorem map_composes {T U V : Type} (l : Async World T)
    (fn : T -> completion U) (gn : U -> completion (Adapters.Returned V)) (w : World) :
  Adapters.outcome (Adapters.map (Adapters.map l (Adapters.plainly fn)) gn w)
    = Adapters.outcome (Adapters.map l (Adapters.and_then fn gn) w) /\
  Adapters.outcome (Adapters.map l (Adapters.plainly Normal) w) = Adapters.outcome (l w) /\
  (forall (hn : T -> completion (Adapters.Returned U)) p w1 t q,
     l w = (Normal p, w1) -> eventually p = Fulfilled t -> hn t = Normal (Adapters.Thenable q) ->
     Adapters.outcome (Adapters.map l hn w) = Normal (eventually q) /\
     Adapters.outcome (Adapters.map (Adapters.map l hn) gn w)
       = Normal (match eventually q with
                 | Fulfilled u =>
                     match gn u with
                     | Normal (Adapters.Plain v) => Fulfilled v
                     | Normal (Adapters.Thenable r) => eventually r
                     | Throw e => Rejected e
                     end
                 | Rejected e => Rejected e
                 | Pending => Pending
                 end)) /\
  (forall (hn : T -> completion (Adapters.Returned U)) e,
     Adapters.outcome (l w) = Normal (Rejected e) ->
     Adapters.outcome (Adapters.map (Adapters.map l hn) gn w) = Normal (Rejected e)) /\
  (forall (hn : T -> completion (Adapters.Returned U)) e,
     Adapters.outcome (l w) = Throw e ->
     Adapters.outcome (Adapters.map (Adapters.map l hn) gn w) = Throw e).
Proof.
  split_and!.
  - rewrite map_map_outcome, map_outcome.
    destruct (l w) as [[p|e] w1]; [|done]. f_equal.
    unfold Adapters.settle, Adapters.plainly, Adapters.and_then.
    destruct (eventually p) as [t|e|]; [|done|done]. by destruct (fn t).
  - rewrite map_outcome. unfold Adapters.outcome.
    destruct (l w) as [[p|e] w1]; [|done]. simpl. f_equal. by destruct (eventually p).
  - intros hn p w1 t q Hl Hp Hq. rewrite map_map_outcome, map_outcome, Hl, Hp. simpl.
    by rewrite Hq.
  - intros hn e He. rewrite map_map_outcome. unfold Adapters.outcome in He.
    destruct (l w) as [[p|e'] w1]; [|done]. simpl in He. injection He as ->. done.
  - intros hn e He. rewrite map_map_outcome. unfold Adapters.outcome in He.
    destruct (l w) as [[p|e'] w1]; simpl in He; congruence.
Qed.

(** [pick] on what the loader's promise is fulfilled with: the
    property of the object itself or, when it has none of its own, of the
    first object of its prototype chain that has one; a thenable held by
    the property is followed, what a getter throws rejects; [undefined]
    (no failure) when no object of the chain has the property; a rejection
    by a [TypeError] for [null] and [undefined]; a rejection of the loader
    passes through. *)
Theorem pick_outcome key loader (w w1 : World) p :
  loader w = (Normal p, w1) ->
  (forall tables i slot,
     eventually p = Fulfilled (Adapters.Chain tables) ->
     Adapters.found_at tables key i slot ->
     Adapters.outcome (Adapters.pick key loader w)
       = Normal (match slot with
                 | Adapters.Data (Adapters.Plain v)
                 | Adapters.Accessor (Normal (Adapters.Plain v)) => Fulfilled v
                 | Adapters.Data (Adapters.Thenable q)
                 | Adapters.Accessor (Normal (Adapters.Thenable q)) => eventually q
                 | Adapters.Accessor (Throw e) => Rejected e
                 end)) /\
  (forall tables,
     eventually p = Fulfilled (Adapters.Chain tables) ->
     Forall (fun o => o !! key = None) tables ->
     Adapters.outcome (Adapters.pick key loader w) = Normal (Fulfilled VUndefined)) /\
  (eventually p = Fulfilled Adapters.Nullish ->
     Adapters.outcome (Adapters.pick key loader w) = Normal (Rejected Adapters.TypeError)) /\
  (forall e, eventually p = Rejected e ->
     Adapters.outcome (Adapters.pick key loader w) = Normal (Rejected e)).
Proof.
  intros Hl. unfold Adapters.pick. rewrite map_outcome, Hl.
  split_and!.
  - intros tables i slot -> Hfound. simpl.
    rewrite (lookup_chain_found _ _ _ _ Hfound).
    by destruct slot as [[v|q]|[[v|q]|e]].
  - intros tables -> Habsent. simpl. by rewrite (lookup_chain_absent _ _ Habsent).
  - by intros ->.
  - by intros e ->.
Qed.

(** A source whose loader picks a property of what it loads: when
    the source is selected and the object loaded has the property, its own
    or inherited, [resolve] is fulfilled with the value of that property
    tagged with the tag of the source: for a value that is copied key by
    key, an object with the properties of the value and the tag under
    [Tag]. When no object of the chain has the property, [resolve] is
    fulfilled all the same, with an object that holds the tag alone. *)
Theorem resolve_through_pick (fallback : Source World) others locales (st st1 : State)
    k s key loader p w1 tables :
  winner (new fallback others) locales st = (Normal k, st1) ->
  (fallback :: others) !! k = Some s ->
  Resource.loader s = Adapters.asynchronous (Adapters.pick key loader) ->
  loader (fst st1) = (Normal p, w1) ->
  eventually p = Fulfilled (Adapters.Chain tables) ->
  (forall i content,
     Adapters.found_at tables key i (Adapters.Data (Adapters.Plain content)) ->
     fst (resolve (new fallback others) locales st)
       = Fulfilled (tag content (VString (Resource.tag s))) /\
     (copied_by_key content ->
      fst (resolve (new fallback others) locales st)
        = Fulfilled (VObject (<[ Tag := VString (Resource.tag s) ]>
                                (own_enumerable content))))) /\
  (Forall (fun o => o !! key = None) tables ->
     fst (resolve (new fallback others) locales st)
       = Fulfilled (VObject {[ Tag := VString (Resource.tag s) ]})).
Proof.
  intros Hw Hs Hls Hl Hp.
  assert (fst (resolve (new fallback others) locales st)
          = match Adapters.settle (fun t => Adapters.read t key) (eventually p) with
            | Fulfilled t => Fulfilled (tag t (VString (Resource.tag s)))
            | Rejected e => Rejected e
            | Pending => Pending
            end) as Hr.
  { rewrite resolve_winner, Hw. unfold load, call. simpl sources. simpl Core.fallback.
    rewrite (nth_lookup_Some _ _ fallback _ Hs), Hls.
    unfold Adapters.asynchronous, Adapters.pick, Adapters.map, Adapters.then_, bind, ret.
    rewrite Hl. by destruct (Adapters.newPromise w1) as [id w2]. }
  rewrite Hr, Hp. simpl. split.
  - intros i content Hfound. rewrite (lookup_chain_found _ _ _ _ Hfound).
    split; [done|]. intros _.
    by rewrite (proj1 (tag_content content (VString (Resource.tag s)))).
  - intros Habsent. by rewrite (lookup_chain_absent _ _ Habsent).
Qed.

End MapPick.

Lemma pick_outcome_witness :
  Adapters.outcome (Adapters.pick (PString "default") Sample.importing_module 0)
    = Normal (Fulfilled (Example.hello "你好！")) /\
  Adapters.outcome (Adapters.pick (PString "default") Sample.inheriting 0)
    = Normal (Fulfilled (Example.hello "你好！")) /\
  Adapters.outcome (Adapters.pick (PString "missing") Sample.inheriting 0)
    = Normal (Fulfilled VUndefined).
Proof.
  split_and!.
  - apply (proj1 (pick_outcome (PString "default") Sample.importing_module 0 0
                    {| promise_id := 100;
                       eventually := Fulfilled (Adapters.Chain [Sample.zh_module]) |}
                    eq_refl)
             [Sample.zh_module] 0
             (Adapters.Data (Adapters.Plain (Example.hello "你好！"))) eq_refl).
    exists Sample.zh_module. split_and!; [done | done | lia].
  - apply (proj1 (pick_outcome (PString "default") Sample.inheriting 0 0
                    {| promise_id := 101;
                       eventually := Fulfilled (Adapters.Chain [∅; Sample.zh_module]) |}
                    eq_refl)
             [∅; Sample.zh_module] 1
             (Adapters.Data (Adapters.Plain (Example.hello "你好！"))) eq_refl).
    exists Sample.zh_module. split_and!; [done | done |].
    intros [|j] o Hj Ho; [|lia]. simpl in Ho. by injection Ho as <-.
  - apply (proj1 (proj2 (pick_outcome (PString "missing") Sample.inheriting 0 0
                    {| promise_id := 101;
                       eventually := Fulfilled (Adapters.Chain [∅; Sample.zh_module]) |}
                    eq_refl))
             [∅; Sample.zh_module] eq_refl).
    by repeat constructor.
Defined.

Lemma resolve_through_pick_witness :
  fst (resolve (new Sample.en_US [Sample.zh_CN]) ["zh-CN"] (0, []))
    = Fulfilled (VObject (<[ Tag := VString "zh-CN" ]>
                            {[ PString "hello" := VString "你好！" ]})).
Proof.
  apply (proj1 (resolve_through_pick Sample.en_US [Sample.zh_CN] ["zh-CN"] (0, [])
                  (0, [CallPredicate 0 "zh-CN"; CallPredicate 1 "zh-CN"])
                  1 Sample.zh_CN (PString "default") Sample.importing_module
                  {| promise_id := 100;
                     eventually := Fulfilled (Adapters.Chain [Sample.zh_module]) |}
                  0 [Sample.zh_module] eq_refl eq_refl eq_refl eq_refl eq_refl)
           0 (Example.hello "你好！")).
  - exists Sample.zh_module. split_and!; [done | done | lia].
  - reflexivity.
Defined.

(** ** The React binding *)

Lemma has_comma_append (a b : string) :
  has_comma (a +:+ b) = has_comma a || has_comma b.
Proof.
  induction a as [|c a IH]; [done|].
  rewrite append_cons. simpl. by rewrite IH, orb_assoc.
Qed.

Lemma has_comma_separator (a b : string) : has_comma (a +:+ "," +:+ b) = true.
Proof. rewrite has_comma_append. change (has_comma ("," +:+ b)) with true. apply orb_true_r. Qed.

(** Two strings without comma, each followed by a comma and a rest, are
    the same as soon as the whole is. *)
Lemma comma_splits (a : string) : forall b x y : string,
  has_comma a = false -> has_comma b = false ->
  (a +:+ "," +:+ x) = (b +:+ "," +:+ y) -> a = b /\ x = y.
Proof.
  induction a as [|c a IH]; intros [|d b] x y Ha Hb Heq.
  - split; [done|]. by injection Heq.
  - change (String comma x = String d (b +:+ "," +:+ y)) in Heq.
    injection Heq as <- _. by simpl in Hb.
  - change (String c (a +:+ "," +:+ x) = String comma y) in Heq.
    injection Heq as -> _. by simpl in Ha.
  - rewrite !append_cons in Heq. injection Heq as -> Heq.
    simpl in Ha, Hb. apply orb_false_elim in Ha as [_ Ha]. apply orb_false_elim in Hb as [_ Hb].
    destruct (IH b x y Ha Hb Heq) as [-> ->]. done.
Qed.

Lemma toString_cons2 (a b : string) (l : list string) :
  React.toString (a :: b :: l) = (a +:+ "," +:+ React.toString (b :: l)).
Proof. done. Qed.

(** The key of the query tells two lists of locales apart when no locale
    holds a comma, but for the empty list and the list of one empty
    string; a locale with a comma is taken for two. *)
Theorem queryKey_collisions (l1 l2 : list string) :
  (Forall (fun s => has_comma s = false) l1 ->
   Forall (fun s => has_comma s = false) l2 ->
   React.queryKey l1 None = React.queryKey l2 None ->
   l1 = l2 \/ (l1 = [] /\ l2 = [""]) \/ (l1 = [""] /\ l2 = [])) /\
  React.queryKey [] None = React.queryKey [""] None /\
  (forall context, React.queryKey l1 (Some context) = React.queryKey (l1 ++ context) None) /\
  (forall a b : string,
     React.queryKey [(a +:+ "," +:+ b)%string] None = React.queryKey [a; b] None).
Proof.
  split; [|split; [done|split]].
  - unfold React.queryKey, React.merged. simpl. rewrite !app_nil_r.
    intros H1 H2 [= Heq]. revert l2 H2 Heq.
    induction H1 as [|a l1 Ha H1 IH]; intros l2 H2 Heq.
    + destruct H2 as [|b l2 Hb H2]; [by left|].
      destruct l2 as [|b2 l2].
      * change (EmptyString = b) in Heq. subst b. right. by left.
      * rewrite toString_cons2 in Heq. by destruct b.
    + destruct l1 as [|a2 l1].
      * destruct H2 as [|b l2 Hb H2].
        -- change (a = EmptyString) in Heq. subst a. right. by right.
        -- destruct l2 as [|b2 l2]; [change (a = b) in Heq; subst; by left|].
           rewrite toString_cons2 in Heq. change (React.toString [a]) with a in Heq.
           subst a. by rewrite has_comma_separator in Ha.
      * destruct H2 as [|b l2 Hb H2].
        -- rewrite toString_cons2 in Heq. by destruct a.
        -- destruct l2 as [|b2 l2].
           ++ rewrite toString_cons2 in Heq. change (React.toString [b]) with b in Heq.
              subst b. by rewrite has_comma_separator in Hb.
           ++ rewrite !toString_cons2 in Heq.
              destruct (comma_splits _ _ _ _ Ha Hb Heq) as [-> Heq'].
              destruct (IH _ H2 Heq') as [[= -> ->] | [[? ?] | [? ?]]]; [by left | done | done].
  - intros context. unfold React.queryKey, React.merged. simpl. by rewrite app_nil_r.
  - intros a b. done.
Qed.

Section Placeholder.
Context {World : Type}.

(** Until the query has data, the hook gives the content of the fallback,
    tagged with its tag: what [resolve] without locales is fulfilled with.
    Once there is data, the loader of the fallback is not called. *)
Theorem placeholder_is_fallback_result (fallback : Source World) others (w w2 : World) tr t :
  loader fallback w = (Normal (Immediately t), w2) ->
  React.translation_or_placeholder (new fallback others) None w
    = (Normal (tag t (VString (Resource.tag fallback))), w2) /\
  resolve (new fallback others) [] (w, tr)
    = (Fulfilled (tag t (VString (Resource.tag fallback))), (w2, tr ++ [CallLoader 0])) /\
  get (tag t (VString (Resource.tag fallback))) Tag = VString (Resource.tag fallback) /\
  (forall data, React.translation_or_placeholder (new fallback others) (Some data) w
                = (Normal data, w)).
Proof.
  intros Hl. split_and!.
  - unfold React.translation_or_placeholder, React.placeholder, bind, ret. simpl.
    by rewrite Hl.
  - unfold resolve. simpl. unfold load, call. simpl. by rewrite Hl.
  - rewrite tag_props. simpl.
    by rewrite (lookup_union_Some_l _ _ _ (VString (Resource.tag fallback)))
      by apply lookup_singleton_eq.
  - done.
Qed.

End Placeholder.

Lemma placeholder_is_fallback_result_witness :
  React.translation_or_placeholder (new Example.en_US [Example.zh_CN]) None tt
    = (Normal (tag (Example.hello "Hello!") (VString "en-US")), tt).
Proof.
  apply (placeholder_is_fallback_result Example.en_US [Example.zh_CN] tt tt []
           (Example.hello "Hello!") eq_refl).
Defined.

(** ** [matches] with a global expression *)

Lemma matches_result `{!JsRegExp.RegExpHeap World} (pattern : JsRegExp.RegExp) tag (w : World) :
  fst (matches pattern tag w) =
  Normal (Bool (match JsRegExp.search (JsRegExp.matcher pattern) (JsRegExp.sticky pattern) tag
                        (S (String.length tag) -
                         (if JsRegExp.global pattern || JsRegExp.sticky pattern
                          then JsRegExp.getLastIndex (JsRegExp.re_id pattern) w else 0))
                        (if JsRegExp.global pattern || JsRegExp.sticky pattern
                         then JsRegExp.getLastIndex (JsRegExp.re_id pattern) w else 0) with
                 | Some _ => true
                 | None => false
                 end)).
Proof.
  unfold matches, JsRegExp.test, JsRegExp.RegExpBuiltinExec, bind, ret.
  by destruct (JsRegExp.search _ _ _ _ _).
Qed.

(** The predicate made from an expression with the [g] flag answers like
    the one made from the expression without it whenever [lastIndex] is 0;
    an answer [false] leaves [lastIndex] at 0, so that the call after it
    answers like the expression without the flag. *)
Theorem matches_global_extent (pattern : JsRegExp.RegExp) tag (w : gmap nat nat) :
  JsRegExp.global pattern = true ->
  JsRegExp.sticky pattern = false ->
  (JsRegExp.getLastIndex (JsRegExp.re_id pattern) w = 0 ->
   fst (matches pattern tag w) = fst (matches (flagless pattern) tag w)) /\
  (fst (matches pattern tag w) = Normal (Bool false) ->
   JsRegExp.getLastIndex (JsRegExp.re_id pattern) (snd (matches pattern tag w)) = 0 /\
   fst (matches pattern tag (snd (matches pattern tag w)))
     = fst (matches (flagless pattern) tag w)).
Proof.
  intros Hg Hy.
  assert (forall w' : gmap nat nat,
            JsRegExp.getLastIndex (JsRegExp.re_id pattern) w' = 0 ->
            fst (matches pattern tag w') = fst (matches (flagless pattern) tag w)) as H0.
  { intros w' Hw'. rewrite (matches_result pattern), Hg, Hy. cbn [orb]. rewrite Hw'.
    by rewrite (matches_result (flagless pattern)). }
  split; [apply H0|].
  intros Hfalse.
  assert (JsRegExp.getLastIndex (JsRegExp.re_id pattern) (snd (matches pattern tag w)) = 0)
    as Hreset.
  { revert Hfalse.
    unfold matches, JsRegExp.test, JsRegExp.RegExpBuiltinExec, bind, ret.
    rewrite Hg, Hy. simpl.
    destruct (JsRegExp.search _ _ _ _ _); [done|]. intros _. simpl.
    by rewrite lookup_insert_eq. }
  split; [done | by apply H0].
Qed.

Lemma matches_global_extent_witness :
  fst (matches Example.en_g "en-US" (∅ : gmap nat nat))
    = fst (matches (flagless Example.en_g) "en-US" (∅ : gmap nat nat)).
Proof.
  apply (proj1 (matches_global_extent Example.en_g "en-US" ∅ eq_refl eq_refl)).
  reflexivity.
Defined.

(** ** These theorems at work *)

(** French, then Taiwanese Chinese, then English: the first two are put
    to both sources, the third to none. *)
Lemma resolve_asks_every_source_witness :
  exists asked rest,
    ["fr-FR"; "zh-TW"; "en-US"] = asked ++ rest /\
    [CallPredicate 0 "fr-FR"; CallPredicate 1 "fr-FR";
     CallPredicate 0 "zh-TW"; CallPredicate 1 "zh-TW"]
      = [] ++ concat (List.map (predicate_calls 0 2) asked).
Proof.
  destruct (resolve_asks_every_source Example.en_US [Example.zh_CN]
              ["fr-FR"; "zh-TW"; "en-US"] (tt, []) 1
              (tt, [CallPredicate 0 "fr-FR"; CallPredicate 1 "fr-FR";
                    CallPredicate 0 "zh-TW"; CallPredicate 1 "zh-TW"]) eq_refl)
    as (asked & rest & H1 & H2 & _).
  exists asked, rest. split; [exact H1 | exact H2].
Defined.

Lemma resolve_selects_first_best_witness :
  1 = 0 \/
  exists pre locale post st1 sc M,
    ["fr-FR"; "zh-TW"; "en-US"] = pre ++ locale :: post /\
    winner (new Example.en_US [Example.zh_CN]) pre (tt, []) = (Normal 0, st1) /\
    scores [Example.en_US; Example.zh_CN] locale (fst st1) = (Normal sc, tt) /\
    Forall (fun x => gt x M = false) sc /\
    sc !! 1 = Some M /\
    gt M zero = true /\
    forall n x, n < 1 -> sc !! n = Some x -> ge x M = false.
Proof.
  apply (resolve_selects_first_best Example.en_US [Example.zh_CN]
           ["fr-FR"; "zh-TW"; "en-US"] (tt, []) 1
           (tt, [CallPredicate 0 "fr-FR"; CallPredicate 1 "fr-FR";
                 CallPredicate 0 "zh-TW"; CallPredicate 1 "zh-TW"]) eq_refl).
Defined.

Lemma resolve_ignores_sign_of_weight_witness :
  resolve (new Example.en_US [Sample.en_minus_twice]) ["en-GB"] (tt, [])
    = resolve (new Example.en_US [Sample.en_twice]) ["en-GB"] (tt, []).
Proof.
  apply (resolve_ignores_sign_of_weight Example.en_US [Sample.en_twice]
           Example.en_US [Sample.en_minus_twice]).
  - split; [reflexivity | split; [reflexivity | left; reflexivity]].
  - constructor; [|constructor].
    split; [reflexivity | split; [reflexivity|]].
    right. exists two, (startsWith "en"). split; reflexivity.
Defined.

(** Within [mean] the sign of a weight counts: weights 2 and 2 select the
    source, weights 2 and -2 cancel and leave the fallback selected. *)
Lemma weight_within_mean_counts_with_sign :
  fst (winner (new Example.zh_CN [Sample.en_mean_twice]) ["en-US"] (tt, [])) = Normal 1 /\
  fst (winner (new Example.zh_CN [Sample.en_mean_opposed]) ["en-US"] (tt, [])) = Normal 0.
Proof. split; by vm_compute. Qed.

Lemma tag_again_witness :
  copied_by_key (Example.hello "Hello!") /\
  tag (tag (Example.hello "Hello!") (VString "en-US")) (VString "zh-CN")
    = tag (Example.hello "Hello!") (VString "zh-CN").
Proof.
  split; [reflexivity|].
  apply (tag_again (Example.hello "Hello!") (VString "en-US") (VString "zh-CN")).
  reflexivity.
Defined.
